(** * The Gambler's Report: name normalisation, column detection,
      aggregation and geo merge of [visualiser-web/src/lib/data.ts]

    A shallow embedding of the data library of the web visualiser.

    - A JavaScript string is the list of its code points (what
      [Array.from] iterates over; a surrogate pair is one code point).
    - A number is an IEEE 754 binary64 float ([PrimFloat]); sums are the
      float additions the code performs, in the order it performs them.
    - A cell of a row or a property of a feature holds a scalar:
      [undefined], [null], a boolean, a number or a string.
      [normalizeName], whose argument is of type [any], is also given on
      objects ([normalizeName_any]): an object is known by the primitive
      [String] makes of it, if it makes one.
    - A [Map] is an association list in insertion order; a row is the
      list of its own properties in [Object.keys] order; the metrics of a
      region and the properties of a feature are finite maps.
    - The parts of the language runtime that need Unicode tables or
      number formatting ([toUpperCase] and [toLowerCase] outside ASCII,
      [String] of a number, [Number] of a string) are variables of the
      section [Runtime]: every theorem holds for all of them.  The module
      [Sample] gives one instance, used by the worked examples. *)

From Stdlib Require Import PrimFloat String Ascii DecimalString DecimalNat.
From stdpp Require Import base option list gmap.

Local Open Scope N_scope.

(** ** Strings *)

(** A JavaScript string, as the sequence of its code points (what
    [Array.from(t)] iterates over). *)
Abbreviation jsstring := (list N).

(** String literals of the source, written as Rocq strings. *)
Definition js (s : string) : jsstring :=
  map N_of_ascii (list_ascii_of_string s).

(** ** Values *)

(** The scalar values a cell of a [Row] or a GeoJSON property holds. *)
Inductive value : Type :=
  | JUndefined
  | JNull
  | JBool (b : bool)
  | JNum (x : float)
  | JStr (s : jsstring).

(** [v == null] *)
Definition is_nullish (v : value) : bool :=
  match v with
  | JUndefined | JNull => true
  | _ => false
  end.

(** [v ?? d] *)
Definition nullish_or (v d : value) : value :=
  if is_nullish v then d else v.

(** Truthiness, as tested by [if (v)] and [!v]. *)
Definition truthy (v : value) : bool :=
  match v with
  | JUndefined | JNull => false
  | JBool b => b
  | JNum x => negb (PrimFloat.is_zero x || PrimFloat.is_nan x)
  | JStr s => match s with [] => false | _ => true end
  end.

(** [typeof v === 'number'] *)
Definition is_number (v : value) : bool :=
  match v with
  | JNum _ => true
  | _ => false
  end.

(** A value of any kind, as [normalizeName] may be handed ([s: any]): a
    scalar, or an object.  All that [String] asks of an object is a
    primitive ([toString] first, then [valueOf]); an object that gives
    none, such as [Object.create(null)] or [{toString: 1}], makes it throw
    a TypeError. *)
Inductive any_value : Type :=
  | Scalar (v : value)
  | Object (primitive : option value).

(** How a call that yields a string ends. *)
Inductive outcome : Type :=
  | Returns (s : jsstring)
  | Throws.

(** ** ASCII character classes *)

Definition ascii_upper (c : N) : N :=
  if (97 <=? c) && (c <=? 122) then c - 32 else c.

Definition ascii_lower (c : N) : N :=
  if (65 <=? c) && (c <=? 90) then c + 32 else c.

(** The character class of [/[A-Z0-9 ]/]. *)
Definition is_key_char (c : N) : bool :=
  ((65 <=? c) && (c <=? 90)) || ((48 <=? c) && (c <=? 57)) || (c =? 32).

(** White space and line terminators, the characters [trim] strips. *)
Definition is_space (c : N) : bool :=
  ((9 <=? c) && (c <=? 13)) || (c =? 32) || (c =? 160) || (c =? 5760)
  || ((8192 <=? c) && (c <=? 8202)) || (c =? 8232) || (c =? 8233)
  || (c =? 8239) || (c =? 8287) || (c =? 12288) || (c =? 65279).

Fixpoint trimStart (s : jsstring) : jsstring :=
  match s with
  | c :: s' => if is_space c then trimStart s' else s
  | [] => []
  end.

Definition trimEnd (s : jsstring) : jsstring :=
  rev (trimStart (rev s)).

(** [s.trim()] *)
Definition trim (s : jsstring) : jsstring :=
  trimEnd (trimStart s).

(** [s.includes(pat)] *)
Fixpoint startsWith (s pat : jsstring) {struct pat} : bool :=
  match pat, s with
  | [], _ => true
  | p :: pat', c :: s' => (p =? c) && startsWith s' pat'
  | _ :: _, [] => false
  end.

Fixpoint includes (s pat : jsstring) : bool :=
  startsWith s pat
  || match s with
     | [] => false
     | _ :: s' => includes s' pat
     end.

(** Matching under the [i] flag: two characters agree when their
    canonical (upper-cased) forms do; a character outside ASCII never
    canonicalises to an ASCII one, so against the ASCII letters of the
    patterns below only the ASCII case pairs agree. *)
Fixpoint ci_startsWith (s pat : jsstring) {struct pat} : bool :=
  match pat, s with
  | [], _ => true
  | p :: pat', c :: s' => (ascii_upper p =? ascii_upper c) && ci_startsWith s' pat'
  | _ :: _, [] => false
  end.

Fixpoint ci_includes (s pat : jsstring) : bool :=
  ci_startsWith s pat
  || match s with
     | [] => false
     | _ :: s' => ci_includes s' pat
     end.

(** ** Rows, maps and records *)

(** A row object: its own properties, in the order [Object.keys] lists
    them. *)
Abbreviation Row := (list (jsstring * value)).

Definition Object_keys (r : Row) : list jsstring := map fst r.

(** [r[c]]; a missing property reads as [undefined]. *)
Fixpoint row_get (r : Row) (c : jsstring) : value :=
  match r with
  | [] => JUndefined
  | (k, v) :: r' => if decide (k = c) then v else row_get r' c
  end.

(** A [Map<string, V>]: entries in insertion order. *)
Abbreviation JsMap V := (list (jsstring * V)).

(** [m.get(k)] *)
Fixpoint map_get {V} (m : JsMap V) (k : jsstring) : option V :=
  match m with
  | [] => None
  | (k', v) :: m' => if decide (k' = k) then Some v else map_get m' k
  end.

(** [m.set(k, v)]: an existing key keeps its place, a new one goes last. *)
Fixpoint map_set {V} (m : JsMap V) (k : jsstring) (v : V) : JsMap V :=
  match m with
  | [] => [(k, v)]
  | (k', v') :: m' =>
      if decide (k' = k) then (k, v) :: m' else (k', v') :: map_set m' k v
  end.

(** The value type of the aggregation map. *)
Module Bucket.
Record t := mk { name : jsstring; metrics : gmap jsstring float }.
End Bucket.

(** An element of the list the aggregators return. *)
Module Region.
Record t := mk { key : jsstring; name : jsstring; metrics : gmap jsstring float }.
End Region.

Module FileMapping.
Record t := mk {
  name : jsstring;
  rows : list Row;
  lgaCol : option jsstring;
  valueCols : list jsstring
}.
End FileMapping.

(** A GeoJSON feature: its [properties] member ([null] allowed); the
    geometry is never read or written by the library. *)
Module Feature.
Record t := mk { properties : option (gmap jsstring value) }.
End Feature.

Record Summary := mkSummary { _attached_count : nat; _total_features : nat }.

Module FeatureCollection.
Record t := mk { features : list Feature.t; properties : option Summary }.
End FeatureCollection.

(** [`metric_${idx+1}`] *)
Definition decimal (n : nat) : jsstring :=
  js (NilEmpty.string_of_uint (Nat.to_uint n)).

Definition metric_key (idx : nat) : jsstring :=
  js "metric_" ++ decimal (idx + 1).

Definition candidates : list jsstring :=
  map js ["LGA_NAME"; "LGA"; "LGA Name"; "LGA_NAME_2021";
          "Local Government Area"; "LG A"; "lga"; "lga_name"; "name";
          "LGA_NAME_2016"; "AREA_NAME"]%string.

(** The alternatives of [/(exp|loss|amount|value|net|total)/i]. *)
Definition value_vocabulary : list jsstring :=
  map js ["exp"; "loss"; "amount"; "value"; "net"; "total"]%string.

Definition nameFields : list jsstring :=
  map js ["LGA_NAME"; "LGA_NAME_2021"; "LGA_NAME_2016"; "lga_name";
          "NAME"; "name"; "lga"]%string.

(** [!s] for a string, [a.length === 0] for an array *)
Definition is_empty {A} (s : list A) : bool :=
  match s with
  | [] => true
  | _ => false
  end.

(** [!k] for [k : string | null] *)
Definition no_key (k : option jsstring) : bool :=
  match k with
  | None => true
  | Some s => is_empty s
  end.

(** [s.split(sep)] for a one-character separator: the segments between
    the separators, at least one. *)
Fixpoint split (sep : N) (s : jsstring) : list jsstring :=
  match s with
  | [] => [[]]
  | c :: s' =>
      if c =? sep then [] :: split sep s'
      else
        match split sep s' with
        | seg :: segs => (c :: seg) :: segs
        | [] => [[c]]
        end
  end.

(** A browser [File]: its name and its content. *)
Module UploadedFile.
Record t := mk { name : jsstring; content : list N }.
End UploadedFile.

(** Why a promise was rejected: an [Error] with its message, or
    whatever a parsing library raised. *)
Inductive rejection : Type :=
  | ErrorMessage (message : jsstring)
  | LibraryError (message : jsstring).

(** A settled promise of rows. *)
Inductive settled : Type :=
  | Resolved (rows : list Row)
  | Rejected (reason : rejection).

(** ** A runtime for the worked examples

    A small instance of the four runtime functions, and the tables and
    features of the examples.  It is exact on ASCII and Latin-1 letters
    (other code points are left as they are), on strings of decimal
    digits (other strings read as NaN), and on NaN, the infinities and
    the integers below 2^51 (other numbers print as [?]). *)
Module Sample.

Definition unicode_upper (c : N) : jsstring :=
  if c =? 223 then js "SS"
  else if c =? 181 then [924]
  else if c =? 255 then [376]
  else if (224 <=? c) && (c <=? 254) && negb (c =? 247) then [c - 32]
  else [c].

Definition unicode_toLowerCase (s : jsstring) : jsstring :=
  map (fun c => if (192 <=? c) && (c <=? 222) && negb (c =? 215)
                then c + 32 else ascii_lower c) s.

(** The nearest integer of [0 <= x < 2^52]. *)
Definition nearest (x : float) : float :=
  (x + 4503599627370496 - 4503599627370496)%float.

(** The integer quotient by ten of an integer [0 <= x < 2^51]. *)
Definition div10 (x : float) : float :=
  let q := nearest (x / 10) in
  if (x <? q * 10)%float then (q - 1)%float else q.

Definition digit_char (d : float) : N :=
  48 + N.of_nat (length (List.filter (fun k => (k <? d)%float)
                           [0; 1; 2; 3; 4; 5; 6; 7; 8]%float)).

Fixpoint decimal_digits (fuel : nat) (x : float) (acc : jsstring)
    : jsstring :=
  match fuel with
  | O => acc
  | S fuel' =>
      let q := div10 x in
      let acc' := digit_char (x - q * 10) :: acc in
      if PrimFloat.is_zero q then acc' else decimal_digits fuel' q acc'
  end.

Definition magnitude_to_string (x : float) : jsstring :=
  if PrimFloat.is_infinity x then js "Infinity"
  else if (x <? 2251799813685248)%float && (nearest x =? x)%float
  then decimal_digits 17 x []
  else js "?".

Definition number_to_string (x : float) : jsstring :=
  if PrimFloat.is_nan x then js "NaN"
  else if PrimFloat.is_zero x then js "0"
  else if (x <? 0)%float then js "-" ++ magnitude_to_string (- x)
  else magnitude_to_string x.

Definition digit (c : N) : option float :=
  if (48 <=? c) && (c <=? 57)
  then [0; 1; 2; 3; 4; 5; 6; 7; 8; 9]%float !! N.to_nat (c - 48)
  else None.

Fixpoint digits (s : jsstring) (acc : float) : float :=
  match s with
  | [] => acc
  | c :: s' =>
      match digit c with
      | Some d => digits s' (acc * 10 + d)%float
      | None => PrimFloat.nan
      end
  end.

Definition string_to_number (s : jsstring) : float :=
  digits (trim s) PrimFloat.zero.

(** Two expenditure tables about the same regions, with different
    headers. *)
Definition fileA : FileMapping.t :=
  FileMapping.mk (js "a.csv")
    [ [(js "LGA", JStr (js "Melbourne")); (js "Exp", JNum 10);
       (js "Net", JStr (js "N/A"))];
      [(js "LGA", JStr (js " MELBOURNE ")); (js "Exp", JStr (js "5"));
       (js "Net", JNum 7)];
      [(js "LGA", JStr (js "  ")); (js "Exp", JNum 5); (js "Net", JNum 1)];
      [(js "LGA", JStr (js "Yarra!")); (js "Exp", JStr (js "x"));
       (js "Net", JNull)] ]
    (Some (js "LGA")) [js "Exp"; js "Net"].

Definition fileB : FileMapping.t :=
  FileMapping.mk (js "b.csv")
    [ [(js "Region", JStr (js "melbourne")); (js "Loss", JNum 7)];
      [(js "Region", JStr (js "Ballarat")); (js "Loss", JNum 2)] ]
    (Some (js "Region")) [js "Loss"].

(** A table whose only value cell is not a number. *)
Definition fileNA : FileMapping.t :=
  FileMapping.mk (js "c.csv")
    [ [(js "LGA", JStr (js "Yarra")); (js "Exp", JStr (js "N/A"))] ]
    (Some (js "LGA")) [js "Exp"].


Definition blank_row : Row :=
  [(js "LGA", JStr (js "  ")); (js "Exp", JNum 5); (js "Net", JNum 1)].

Definition yarra_row : Row :=
  [(js "LGA", JStr (js "Yarra!")); (js "Exp", JStr (js "x"));
   (js "Net", JNum 3)].

(** A table whose second row has a column the first one lacks. *)
Definition ragged_rows : list Row :=
  [ [(js "LGA", JStr (js "a"))];
    [(js "LGA", JStr (js "b")); (js "Exp", JNum 5)] ].

Definition unmapped : FileMapping.t :=
  FileMapping.mk (js "d.csv") (FileMapping.rows fileA) None [js "Exp"].

Definition no_rows : FileMapping.t :=
  FileMapping.mk (js "e.csv") [] (Some (js "LGA")) [js "Exp"].

Definition feature (props : list (jsstring * value)) : Feature.t :=
  Feature.mk (Some (list_to_map props)).

Definition geo : FeatureCollection.t :=
  FeatureCollection.mk
    [ feature [(js "LGA_NAME", JStr (js "Melbourne")); (js "metric_1", JNum 0)];
      feature [(js "LGA_NAME", JStr (js "Geelong"))];
      Feature.mk None ]
    None.

End Sample.

(** ** The parts of the language runtime the library calls *)

Section Runtime.

Set Default Proof Using "Type".

(** The upper-case mapping of a code point outside ASCII (Unicode's full
    case mapping: one code point may become several). *)
Variable unicode_upper : N → jsstring.

(** [toLowerCase] on a string that is not pure ASCII. *)
Variable unicode_toLowerCase : jsstring → jsstring.

(** [String(x)] for a number [x]. *)
Variable number_to_string : float → jsstring.

(** [Number(s)] for a string [s]. *)
Variable string_to_number : jsstring → float.

(** Forget the runtime functions a goal does not mention, so that a
    lemma depends on those of its statement only. *)
Ltac tidy :=
  try clear unicode_toLowerCase; try clear string_to_number;
  try clear number_to_string; try clear unicode_upper.

Definition upper_cp (c : N) : jsstring :=
  if c <? 128 then [ascii_upper c] else unicode_upper c.

(** [s.toUpperCase()] *)
Definition toUpperCase (s : jsstring) : jsstring :=
  flat_map upper_cp s.

(** [s.toLowerCase()] *)
Definition toLowerCase (s : jsstring) : jsstring :=
  if forallb (fun c => c <? 128) s then map ascii_lower s
  else unicode_toLowerCase s.

(** [String(v)] *)
Definition ToString (v : value) : jsstring :=
  match v with
  | JUndefined => js "undefined"
  | JNull => js "null"
  | JBool true => js "true"
  | JBool false => js "false"
  | JNum x => number_to_string x
  | JStr s => s
  end.

(** [Number(v)] *)
Definition ToNumber (v : value) : float :=
  match v with
  | JUndefined => PrimFloat.nan
  | JNull => PrimFloat.zero
  | JBool true => PrimFloat.one
  | JBool false => PrimFloat.zero
  | JNum x => x
  | JStr s => string_to_number s
  end.

(** ** normalizeName *)

Definition normalizeName (s : value) : jsstring :=
  if is_nullish s then []
  else
    let t := toUpperCase (ToString s) in
    trim (List.filter is_key_char t).

(** [normalizeName] on a value of any kind.  On an object [s == null] is
    false, and [String(s)] is the string of the object's primitive, or
    throws. *)
Definition normalizeName_any (s : any_value) : outcome :=
  match s with
  | Scalar v => Returns (normalizeName v)
  | Object (Some p) =>
      let t := toUpperCase (ToString p) in
      Returns (trim (List.filter is_key_char t))
  | Object None => Throws
  end.

(** ** Column detection *)

Definition detectLgaColumn (rows : list Row) : option jsstring :=
  match rows with
  | [] => None
  | r0 :: _ =>
      let cols := Object_keys r0 in
      match List.find (fun c => bool_decide (c ∈ cols)) candidates with
      | Some c => Some c
      | None =>
          List.find (fun c => includes (toLowerCase c) (js "lga")) cols
      end
  end.

(** [rows.some(r => typeof r[c] === 'number')] *)
Definition isNumCol (rows : list Row) (c : jsstring) : bool :=
  existsb (fun r => is_number (row_get r c)) rows.

(** [/(exp|loss|amount|value|net|total)/i.test(c)] *)
Definition is_priority (c : jsstring) : bool :=
  existsb (ci_includes c) value_vocabulary.

Definition detectValueColumns (rows : list Row) : list jsstring :=
  match rows with
  | [] => []
  | r0 :: _ =>
      let cols := Object_keys r0 in
      let numeric := List.filter (isNumCol rows) cols in
      let priority := List.filter is_priority numeric in
      if is_empty priority then take 1 numeric else priority
  end.

(** ** Aggregation *)

(** The loop over the value columns of one row ([forEach] with its index
    in [aggregateByLgaWithMapping], the counted [for] with [continue] in
    [aggregateByLga]): column [idx] adds into [metric_${idx+1}] when the
    cell coerces to a finite number. *)
Fixpoint add_metrics (r : Row) (cols : list jsstring) (idx : nat)
    (ms : gmap jsstring float) : gmap jsstring float :=
  match cols with
  | [] => ms
  | c :: cols' =>
      let k := metric_key idx in
      let v := ToNumber (row_get r c) in
      let ms' :=
        if PrimFloat.is_finite v
        then <[k := (default PrimFloat.zero (ms !! k) + v)%float]> ms
        else ms in
      add_metrics r cols' (S idx) ms'
  end.

(** [map.get(key) ?? { name, metrics: {} }], the metric loop, then
    [map.set(key, cur)]. *)
Definition upsert (m : JsMap Bucket.t) (name : jsstring) (r : Row)
    (cols : list jsstring) : JsMap Bucket.t :=
  let key := normalizeName (JStr name) in
  let cur := default (Bucket.mk name ∅) (map_get m key) in
  let cur' := Bucket.mk (Bucket.name cur)
                (add_metrics r cols 0 (Bucket.metrics cur)) in
  map_set m key cur'.

(** [Array.from(map.entries()).map(([key, v]) => ({ key, name: v.name,
    metrics: v.metrics }))] *)
Definition entries (m : JsMap Bucket.t) : list Region.t :=
  map (fun '(key, v) => Region.mk key (Bucket.name v) (Bucket.metrics v)) m.

(** The body of the row loop of [aggregateByLga]. *)
Definition detected_row (lgaCol : jsstring) (valCols : list jsstring)
    (m : JsMap Bucket.t) (r : Row) : JsMap Bucket.t :=
  let name := trim (ToString (nullish_or (row_get r lgaCol) (JStr []))) in
  if is_empty name then m else upsert m name r valCols.

(** The body of the file loop of [aggregateByLga]. *)
Definition detected_file (m : JsMap Bucket.t) (rows : list Row)
    : JsMap Bucket.t :=
  match detectLgaColumn rows with
  | None => m
  | Some lgaCol =>
      if is_empty lgaCol then m
      else
        let valCols := detectValueColumns rows in
        if is_empty valCols then m
        else fold_left (detected_row lgaCol valCols) rows m
  end.

Definition aggregateByLga (filesRows : list (list Row)) : list Region.t :=
  entries (fold_left detected_file filesRows []).

(** The trimmed region name of a row, [''] for a null or missing cell. *)
Definition region_name (lgaCol : jsstring) (r : Row) : jsstring :=
  let raw := row_get r lgaCol in
  if is_nullish raw then [] else trim (ToString raw).

(** The body of the row loop of [aggregateByLgaWithMapping]. *)
Definition mapped_row (lgaCol : jsstring) (valueCols : list jsstring)
    (m : JsMap Bucket.t) (r : Row) : JsMap Bucket.t :=
  let name := region_name lgaCol r in
  if is_empty name then m else upsert m name r valueCols.

(** The body of the file loop of [aggregateByLgaWithMapping]. *)
Definition mapped_file (m : JsMap Bucket.t) (f : FileMapping.t)
    : JsMap Bucket.t :=
  match FileMapping.lgaCol f with
  | None => m
  | Some lgaCol =>
      if is_empty lgaCol || is_empty (FileMapping.valueCols f) then m
      else fold_left (mapped_row lgaCol (FileMapping.valueCols f))
             (FileMapping.rows f) m
  end.

Definition aggregateByLgaWithMapping (files : list FileMapping.t)
    : list Region.t :=
  entries (fold_left mapped_file files []).

(** ** Geo merge *)

(** [new Map(agg.map(a => [a.key, a]))] *)
Definition build_lookup (agg : list Region.t) : JsMap Region.t :=
  fold_left (fun m a => map_set m (Region.key a) a) agg [].

(** [props[k]] *)
Definition prop_get (props : gmap jsstring value) (k : jsstring) : value :=
  default JUndefined (props !! k).

(** The key the loop over [nameFields] leaves: the normalised value of
    the first truthy candidate property, [null] when there is none. *)
Definition field_key (props : gmap jsstring value) : option jsstring :=
  match List.find (fun nf => truthy (prop_get props nf)) nameFields with
  | Some nf => Some (normalizeName (prop_get props nf))
  | None => None
  end.

(** [if (!key && props['name']) key = normalizeName(props['name'])] *)
Definition feature_key (props : gmap jsstring value) : option jsstring :=
  let key := field_key props in
  if no_key key && truthy (prop_get props (js "name"))
  then Some (normalizeName (prop_get props (js "name")))
  else key.

(** [Object.assign(props, metrics)] *)
Definition Object_assign (props : gmap jsstring value)
    (metrics : gmap jsstring float) : gmap jsstring value :=
  (JNum <$> metrics) ∪ props.

(** One turn of the feature loop: the feature as it is left and the
    counter [attached]. *)
Definition merge_feature (lookup : JsMap Region.t) (f : Feature.t)
    (attached : nat) : Feature.t * nat :=
  let props := default ∅ (Feature.properties f) in
  let key := feature_key props in
  if no_key key then (Feature.mk (Some props), attached)
  else
    match map_get lookup (default [] key) with
    | Some hit =>
        (Feature.mk (Some (Object_assign props (Region.metrics hit))),
         S attached)
    | None => (Feature.mk (Some props), attached)
    end.

Fixpoint merge_features (lookup : JsMap Region.t) (fs : list Feature.t)
    (attached : nat) : list Feature.t * nat :=
  match fs with
  | [] => ([], attached)
  | f :: fs' =>
      let '(f', attached') := merge_feature lookup f attached in
      let '(out, n) := merge_features lookup fs' attached' in
      (f' :: out, n)
  end.

Definition mergeMetricsIntoGeoJSON (geo : FeatureCollection.t)
    (agg : list Region.t) : FeatureCollection.t :=
  let lookup := build_lookup agg in
  let '(fs, attached) :=
    merge_features lookup (FeatureCollection.features geo) 0 in
  FeatureCollection.mk fs
    (Some (mkSummary attached (length (FeatureCollection.features geo)))).

(** ** Reading files *)

(** [file.name.toLowerCase().split('.').pop()] *)
Definition file_ext (file : UploadedFile.t) : option jsstring :=
  last (split 46 (toLowerCase (UploadedFile.name file))).

Section Files.

(** The two parsing libraries: [Papa.parse] with a header row, and
    [XLSX.read] followed by [sheet_to_json] of the first sheet. *)
Variable Papa_parse : UploadedFile.t → settled.
Variable XLSX_parse : UploadedFile.t → settled.

Definition parseFile (file : UploadedFile.t) : settled :=
  let ext := file_ext file in
  if decide (ext = Some (js "csv")) then Papa_parse file
  else if decide (ext = Some (js "xls") ∨ ext = Some (js "xlsx"))
  then XLSX_parse file
  else Rejected (ErrorMessage (js "Unsupported file type: "
                               ++ default (js "undefined") ext)).

End Files.

(** ** The application: default mapping, map address *)

(** The mapping [onUpload] proposes for a parsed file. *)
Definition guessMapping (name : jsstring) (rows : list Row)
    : FileMapping.t :=
  let cols := Object_keys (default [] (head rows)) in
  let lgaGuess :=
    match List.find (fun c => ci_includes c (js "lga")) cols with
    | Some c => if is_empty c then None else Some c
    | None => None
    end in
  let numCols := List.filter (isNumCol rows) cols in
  let valueGuess := List.filter is_priority numCols in
  FileMapping.mk name rows lgaGuess
    (if is_empty valueGuess
     then match numCols with
          | c :: _ => if is_empty c then [] else [c]
          | [] => []
          end
     else valueGuess).

(** [`${base}?ts=${Date.now()}`] *)
Definition cache_busted (base : jsstring) (now : float) : jsstring :=
  base ++ js "?ts=" ++ number_to_string now.

(** [src.split('?')[0]] *)
Definition baseSrc (src : jsstring) : jsstring :=
  default [] (head (split 63 src)).

(** ** The specification's wording, for comparison *)

(** *** Normalisation *)

(** Dropping leading spaces (U+0020 only). *)
Fixpoint strip_spaces (s : jsstring) : jsstring :=
  match s with
  | c :: s' => if c =? 32 then strip_spaces s' else s
  | [] => []
  end.

(** Trimmed of leading and trailing spaces. *)
Definition trim_spaces (s : jsstring) : jsstring :=
  rev (strip_spaces (rev (strip_spaces s))).

(** The characters of [A-Z0-9 ]. *)
Definition key_range (c : N) : Prop :=
  65 ≤ c ≤ 90 ∨ 48 ≤ c ≤ 57 ∨ c = 32.

#[global] Instance key_range_dec (c : N) : Decision (key_range c).
Proof. unfold key_range. apply _. Defined.

(** What one character of a string leaves in the key, "uppercased,
    filtered to characters matching [A-Z0-9 ]": a small ASCII letter
    gives its capital; any other ASCII character stays when it is a
    capital, a digit or a space, and goes otherwise; a character outside
    ASCII leaves what its upper-case form has in [A-Z0-9 ]. *)
Definition spec_char (c : N) : jsstring :=
  if decide (97 ≤ c ≤ 122) then [c - 32]
  else if decide (c < 128) then (if decide (key_range c) then [c] else [])
  else filter key_range (unicode_upper c).

(** The key of a string: character by character, then "trimmed of
    leading/trailing spaces". *)
Definition spec_key (s : jsstring) : jsstring :=
  trim_spaces (flat_map spec_char s).

(** *** Column detection *)

(** A column is numeric when at least one row holds a number in it. *)
Definition numeric_column (rows : list Row) (c : jsstring) : Prop :=
  ∃ r, r ∈ rows ∧ ∃ x, row_get r c = JNum x.

(** A header matches the vocabulary when, letter case set aside, one of
    its words is a substring of it. *)
Definition matches_vocabulary (c : jsstring) : Prop :=
  ∃ w, w ∈ value_vocabulary
       ∧ ∃ pre post, map ascii_upper c = pre ++ map ascii_upper w ++ post.

(** [selects P l k]: [k] is [l] with the elements that satisfy [P] kept,
    in their order, and the others left out. *)
Inductive selects {A} (P : A → Prop) : list A → list A → Prop :=
  | selects_nil : selects P [] []
  | selects_keep x l k : P x → selects P l k → selects P (x :: l) (x :: k)
  | selects_drop x l k : ¬ P x → selects P l k → selects P (x :: l) k.

(** *** Keys in first-seen order *)

(** The distinct elements of a list, each at the place of its first
    occurrence. *)
Fixpoint first_seen (l : list jsstring) : list jsstring :=
  match l with
  | [] => []
  | x :: l' => x :: filter (λ y, y ≠ x) (first_seen l')
  end.

(** *** Metric slots *)

(** The finite number a cell coerces to, if it does. *)
Definition finite_cell (r : Row) (c : jsstring) : option float :=
  let v := ToNumber (row_get r c) in
  if PrimFloat.is_finite v then Some v else None.

(** What one turn of the metric loop leaves in a slot. *)
Definition add_to_slot (old : option float) (cell : option float)
    : option float :=
  match cell with
  | Some v => Some (default PrimFloat.zero old + v)%float
  | None => old
  end.

(** The sum a slot holds: the contributions added one after another onto
    [0], in the order met; no slot when there was none. *)
Definition float_sum (l : list float) : option float :=
  match l with
  | [] => None
  | _ => Some (fold_left PrimFloat.add l PrimFloat.zero)
  end.

(** *** Aggregation: the rows that take part *)

(** A row that takes part in the aggregation: its trimmed region name,
    the row, and the value columns of its file. *)
Record contributing := Contributing {
  the_name : jsstring;
  the_row : Row;
  the_cols : list jsstring
}.

Definition row_key (ev : contributing) : jsstring :=
  normalizeName (JStr (the_name ev)).

(** The rows of one file mapping that take part: those of a mapping with
    a region column set and at least one value column whose region cell,
    coerced to a string and trimmed, is not blank. *)
Definition contributing_rows_of (f : FileMapping.t) : list contributing :=
  match FileMapping.lgaCol f with
  | Some lgaCol =>
      if is_empty lgaCol || is_empty (FileMapping.valueCols f) then []
      else
        omap (λ r, let n := region_name lgaCol r in
                   if is_empty n then None
                   else Some (Contributing n r (FileMapping.valueCols f)))
          (FileMapping.rows f)
  | None => []
  end.

Definition contributing_rows (files : list FileMapping.t)
    : list contributing :=
  files ≫= contributing_rows_of.

(** The rows of key [k], in the order met. *)
Definition rows_of_key (k : jsstring) (evs : list contributing)
    : list contributing :=
  filter (λ ev, row_key ev = k) evs.

(** The raw trimmed name of the first row of key [k]. *)
Definition first_name (k : jsstring) (evs : list contributing)
    : option jsstring :=
  the_name <$> head (rows_of_key k evs).

(** The cells of the [i]-th value column that coerce to a finite number,
    over the rows of key [k]. *)
Definition contributions (k : jsstring) (i : nat) (evs : list contributing)
    : list float :=
  omap (λ ev, the_cols ev !! i ≫= finite_cell (the_row ev))
    (rows_of_key k evs).

(** The aggregation map after the rows [evs]. *)
Definition run (evs : list contributing) (m : JsMap Bucket.t)
    : JsMap Bucket.t :=
  fold_left (λ m ev, upsert m (the_name ev) (the_row ev) (the_cols ev)) evs m.


(** *** Keys of the aggregation map *)

(** Every entry is filed under the normalised form of its own name, and
    no key is held twice. *)
Definition keyed (m : JsMap Bucket.t) : Prop :=
  NoDup m.*1
  ∧ Forall (λ kb, kb.1 = normalizeName (JStr (Bucket.name kb.2))) m.

(** *** Geo merge *)

(** The bucket a key finds: the last entry of the list filed under it. *)
Definition lookup_bucket (agg : list Region.t) (k : jsstring)
    : option Region.t :=
  last (filter (λ a, Region.key a = k) agg).

(** The properties of a feature, empty when [properties] is [null]. *)
Definition props_of (f : Feature.t) : gmap jsstring value :=
  default ∅ (Feature.properties f).

(** The first truthy value among the candidate name properties. *)
Definition candidate_name (props : gmap jsstring value) : option value :=
  prop_get props <$> List.find (λ nf, truthy (prop_get props nf)) nameFields.

(** The name a feature goes by: its first truthy candidate, unless that
    normalises to the empty key, in which case a truthy [name] property
    stands in. *)
Definition resolved_name (props : gmap jsstring value) : option value :=
  match candidate_name props with
  | Some v =>
      if is_empty (normalizeName v)
      then (if truthy (prop_get props (js "name"))
            then Some (prop_get props (js "name")) else Some v)
      else Some v
  | None => None
  end.

(** The bucket a feature is matched with: the one its normalised name
    finds, provided that key is not empty. *)
Definition matched (agg : list Region.t) (f : Feature.t)
    : option Region.t :=
  match normalizeName <$> resolved_name (props_of f) with
  | Some (c :: k) => lookup_bucket agg (c :: k)
  | _ => None
  end.

(** A feature received a metric when a bucket with at least one metric
    was copied into it. *)
Definition received_metric (agg : list Region.t) (f : Feature.t) : Prop :=
  match matched agg f with
  | Some hit => Region.metrics hit ≠ ∅
  | None => False
  end.

#[global] Instance received_metric_dec (agg : list Region.t) (f : Feature.t) :
  Decision (received_metric agg f).
Proof. unfold received_metric. destruct (matched agg f); apply _. Defined.

(** *** Further notions *)

(** An ASCII punctuation or control character: below 128 and neither a
    letter, a digit nor a space. *)
Definition ascii_punctuation (c : N) : bool :=
  (c <? 128) && negb (is_key_char (ascii_upper c)).

(** The keys and display names of the aggregation map, in order. *)
Definition key_names (m : JsMap Bucket.t) : list (jsstring * jsstring) :=
  (λ kb, (kb.1, Bucket.name kb.2)) <$> m.

(** The largest number of value columns among the mappings. *)
Definition max_cols (files : list FileMapping.t) : nat :=
  foldr (λ f n, Nat.max (length (FileMapping.valueCols f)) n) 0%nat files.

(** The slots [metric_1] to [metric_n]. *)
Definition metric_slots (n : nat) : gset jsstring :=
  list_to_set (metric_key <$> seq 0 n).

(** ** Normalisation *)

Lemma key_char_range (c : N) :
  is_key_char c = true ↔ 65 ≤ c ≤ 90 ∨ 48 ≤ c ≤ 57 ∨ c = 32.
Proof.
  tidy.
  unfold is_key_char.
  rewrite !orb_true_iff, !andb_true_iff, !N.leb_le, N.eqb_eq. tauto.
Qed.

(** Among the characters of a key, the only white space is the space. *)
Lemma key_char_space (c : N) :
  is_key_char c = true → is_space c = (c =? 32).
Proof.
  intros Hc%key_char_range.
  destruct (N.eqb_spec c 32) as [->|Hne]; [done|].
  apply not_true_is_false. unfold is_space.
  rewrite !orb_true_iff, !andb_true_iff, !N.leb_le, !N.eqb_eq. lia.
Qed.

Lemma trimStart_key_chars (s : jsstring) :
  Forall (λ c, is_key_char c = true) s → trimStart s = strip_spaces s.
Proof.
  induction 1 as [|c s Hc _ IH]; [done|].
  simpl. rewrite IH.
  by rewrite (key_char_space c Hc).
Qed.

Lemma trimStart_suffix (s : jsstring) : trimStart s `suffix_of` s.
Proof.
  induction s as [|c s IH]; simpl; [done|].
  destruct (is_space c); [by apply suffix_cons_r|done].
Qed.

Lemma strip_spaces_suffix (s : jsstring) : strip_spaces s `suffix_of` s.
Proof.
  induction s as [|c s IH]; simpl; [done|].
  destruct (c =? 32); [by apply suffix_cons_r|done].
Qed.

Lemma Forall_suffix {A} (P : A → Prop) (l k : list A) :
  l `suffix_of` k → Forall P k → Forall P l.
Proof. intros [p ->] H. by apply Forall_app in H as [_ H]. Qed.

Lemma trim_key_chars (s : jsstring) :
  Forall (λ c, is_key_char c = true) s → trim s = trim_spaces s.
Proof.
  intros Hs. unfold trim, trimEnd, trim_spaces.
  rewrite (trimStart_key_chars s Hs).
  rewrite trimStart_key_chars; [done|].
  apply Forall_rev. eapply Forall_suffix; [apply strip_spaces_suffix|done].
Qed.

Lemma filter_key_chars (s : jsstring) :
  Forall (λ c, is_key_char c = true) (List.filter is_key_char s).
Proof.
  tidy.
  apply Forall_forall. intros c Hc.
  apply list_elem_of_In, filter_In in Hc. tauto.
Qed.

Lemma trim_sublist_Forall (P : N → Prop) (s : jsstring) :
  Forall P s → Forall P (trim s).
Proof.
  intros Hs. unfold trim, trimEnd.
  apply Forall_rev. eapply Forall_suffix; [apply trimStart_suffix|].
  apply Forall_rev. eapply Forall_suffix; [apply trimStart_suffix|done].
Qed.

(** Every character of a normalised key is in [A-Z0-9 ]. *)
Lemma normalizeName_key_chars (v : value) :
  Forall (λ c, is_key_char c = true) (normalizeName v).
Proof.
  unfold normalizeName. destruct (is_nullish v); [constructor|].
  apply trim_sublist_Forall, filter_key_chars.
Qed.

Lemma trimStart_head (s : jsstring) :
  match trimStart s with
  | c :: _ => is_space c = false
  | [] => True
  end.
Proof.
  induction s as [|c s IH]; simpl; [done|].
  destruct (is_space c) eqn:Hc; [done|]. exact Hc.
Qed.

Lemma trimStart_fixed (s : jsstring) :
  match s with
  | c :: _ => is_space c = false
  | [] => True
  end → trimStart s = s.
Proof. destruct s as [|c s]; simpl; [done|]. by intros ->. Qed.

Lemma trim_idemp (s : jsstring) : trim (trim s) = trim s.
Proof.
  unfold trim, trimEnd.
  pose proof (trimStart_head s) as Ha.
  set (a := trimStart s) in *.
  pose proof (trimStart_head (rev a)) as Hb.
  pose proof (trimStart_suffix (rev a)) as [p Hp].
  set (b := trimStart (rev a)) in *.
  assert (trimStart (rev b) = rev b) as ->.
  { apply trimStart_fixed.
    assert (a = rev b ++ rev p) as Ea.
    { rewrite <- rev_app_distr, <- Hp. by rewrite rev_involutive. }
    destruct (rev b) as [|c r] eqn:Er; [done|].
    rewrite Ea in Ha. exact Ha. }
  rewrite rev_involutive.
  by rewrite (trimStart_fixed b Hb).
Qed.

Lemma key_char_upper (c : N) :
  is_key_char c = true → upper_cp c = [c].
Proof.
  intros Hc%key_char_range. unfold upper_cp, ascii_upper.
  destruct (N.ltb_spec c 128); [|lia].
  destruct (N.leb_spec 97 c); [|done].
  destruct (N.leb_spec c 122); [lia|done].
Qed.

Lemma toUpperCase_key_chars (s : jsstring) :
  Forall (λ c, is_key_char c = true) s → toUpperCase s = s.
Proof.
  induction 1 as [|c s Hc _ IH]; [done|].
  unfold toUpperCase in *. simpl. rewrite IH.
  by rewrite (key_char_upper c Hc).
Qed.

Lemma filter_key_chars_id (s : jsstring) :
  Forall (λ c, is_key_char c = true) s → List.filter is_key_char s = s.
Proof.
  induction 1 as [|c s Hc _ IH]; [done|]. simpl. by rewrite Hc, IH.
Qed.

Lemma filter_flat_map {A B} (f : B → bool) (g : A → list B) (l : list A) :
  List.filter f (flat_map g l) = flat_map (λ x, List.filter f (g x)) l.
Proof.
  tidy. induction l as [|x l IH]; simpl; [done|].
  by rewrite List.filter_app, IH.
Qed.

Lemma filter_key_range (s : jsstring) :
  List.filter is_key_char s = filter key_range s.
Proof.
  tidy. induction s as [|c s IH]; [done|].
  simpl. rewrite filter_cons, IH.
  destruct (is_key_char c) eqn:Hc.
  - apply key_char_range in Hc. by rewrite decide_True.
  - rewrite decide_False; [done|].
    intros Hk%key_char_range. congruence.
Qed.

(** Upper-casing one character and keeping what is in [A-Z0-9 ]. *)
Lemma key_filter_upper (c : N) :
  List.filter is_key_char (upper_cp c) = spec_char c.
Proof.
  unfold upper_cp, spec_char.
  destruct (N.ltb_spec c 128) as [Hlt|Hge].
  - unfold ascii_upper.
    destruct (decide (97 ≤ c ≤ 122)) as [Hs|Hs].
    + destruct (N.leb_spec 97 c); [|lia].
      destruct (N.leb_spec c 122); [|lia]. simpl.
      assert (is_key_char (c - 32) = true) as ->; [|done].
      apply key_char_range. lia.
    + rewrite decide_True by done.
      assert ((97 <=? c) && (c <=? 122) = false) as ->.
      { apply not_true_is_false.
        rewrite andb_true_iff, !N.leb_le. lia. }
      simpl. destruct (is_key_char c) eqn:Hc.
      * apply key_char_range in Hc. by rewrite decide_True.
      * rewrite decide_False; [done|].
        intros Hk%key_char_range. congruence.
  - rewrite decide_False by lia. rewrite decide_False by lia.
    apply filter_key_range.
Qed.

Lemma key_of_string (s : jsstring) :
  trim (List.filter is_key_char (toUpperCase s)) = spec_key s.
Proof.
  rewrite trim_key_chars by apply filter_key_chars.
  unfold spec_key, toUpperCase. f_equal.
  rewrite filter_flat_map.
  induction s as [|c s IH]; simpl; [done|].
  by rewrite key_filter_upper, IH.
Qed.

(** What [trim] returns neither begins nor ends with white space. *)
Lemma trim_ends (s : jsstring) :
  match trim s with c :: _ => is_space c = false | [] => True end
  ∧ match rev (trim s) with c :: _ => is_space c = false | [] => True end.
Proof.
  tidy. unfold trim, trimEnd.
  pose proof (trimStart_head s) as Ha.
  set (a := trimStart s) in *.
  pose proof (trimStart_head (rev a)) as Hb.
  pose proof (trimStart_suffix (rev a)) as [p Hp].
  set (b := trimStart (rev a)) in *.
  split; [|by rewrite rev_involutive].
  assert (a = rev b ++ rev p) as Ea.
  { rewrite <- rev_app_distr, <- Hp. by rewrite rev_involutive. }
  destruct (rev b) as [|c r] eqn:Er; [done|].
  rewrite Ea in Ha. exact Ha.
Qed.

Lemma trim_no_outer_space (s : jsstring) :
  head (trim s) ≠ Some 32 ∧ last (trim s) ≠ Some 32.
Proof.
  tidy. destruct (trim_ends s) as [Hh Hl]. split.
  - destruct (trim s) as [|c k]; [done|]. simpl.
    intros [= ->]. done.
  - rewrite <- (rev_involutive (trim s)).
    destruct (rev (trim s)) as [|c k]; [done|]. simpl.
    rewrite last_snoc. intros [= ->]. done.
Qed.

(** C4, as the code has it: [normalizeName] returns on every scalar and
    on every object that has a string.  [null] and [undefined] give the
    empty string; a boolean gives TRUE or FALSE; a number or a string is
    coerced to a string, upper-cased, filtered to the characters of
    [A-Z0-9 ] and trimmed of its leading and trailing spaces; an object is
    treated through its primitive, a [null] or [undefined] one being read
    as the word.  An object that [String] cannot convert makes it throw,
    and nothing else does.  Whatever is returned is made of characters of
    [A-Z0-9 ] and neither begins nor ends with a space. *)
Theorem normalizeName_on_values :
  normalizeName_any (Scalar JNull) = Returns []
  ∧ normalizeName_any (Scalar JUndefined) = Returns []
  ∧ (∀ b : bool,
       normalizeName_any (Scalar (JBool b))
       = Returns (if b then js "TRUE" else js "FALSE"))
  ∧ (∀ x, normalizeName_any (Scalar (JNum x))
          = Returns (spec_key (number_to_string x)))
  ∧ (∀ s, normalizeName_any (Scalar (JStr s)) = Returns (spec_key s))
  ∧ (∀ p, normalizeName_any (Object (Some p))
          = match p with
            | JNull => Returns (js "NULL")
            | JUndefined => Returns (js "UNDEFINED")
            | _ => normalizeName_any (Scalar p)
            end)
  ∧ normalizeName_any (Object None) = Throws
  ∧ (∀ s, match normalizeName_any s with
          | Returns key =>
              Forall key_range key ∧ head key ≠ Some 32 ∧ last key ≠ Some 32
          | Throws => s = Object None
          end).
Proof.
  split; [done|]. split; [done|].
  split; [by intros [|]; vm_compute|].
  split; [intros x; simpl; unfold normalizeName; simpl;
          by rewrite key_of_string|].
  split; [intros s; simpl; unfold normalizeName; simpl;
          by rewrite key_of_string|].
  split; [by intros [| |[|]|x|s]; vm_compute|].
  split; [done|].
  assert (∀ t, Forall key_range (trim (List.filter is_key_char t))
               ∧ head (trim (List.filter is_key_char t)) ≠ Some 32
               ∧ last (trim (List.filter is_key_char t)) ≠ Some 32) as Hkey.
  { intros t. split; [|apply trim_no_outer_space].
    eapply Forall_impl; [apply trim_sublist_Forall, filter_key_chars|].
    intros c Hc. by apply key_char_range. }
  intros [v|[p|]]; simpl; [|apply Hkey|done].
  unfold normalizeName. destruct (is_nullish v); [|apply Hkey].
  by repeat split.
Qed.

(** C5: normalisation is idempotent: normalising a normalised key gives
    the key back. *)
Theorem normalizeName_idempotent (v : value) :
  normalizeName (JStr (normalizeName v)) = normalizeName v.
Proof.
  pose proof (normalizeName_key_chars v) as Hk.
  unfold normalizeName at 1. simpl.
  rewrite (toUpperCase_key_chars _ Hk), (filter_key_chars_id _ Hk).
  unfold normalizeName. destruct (is_nullish v); [done|].
  apply trim_idemp.
Qed.

(** C6, as the code has it: ["Greater Geelong"] normalises to
    ["GREATER GEELONG"], while ["GREATER   GEELONG!!"] loses its
    punctuation but keeps its three inner spaces, so the two keys differ;
    with a single inner space, ["GREATER GEELONG!!"] has the key of
    ["Greater Geelong"]. *)
Theorem normalizeName_greater_geelong :
  normalizeName (JStr (js "Greater Geelong")) = js "GREATER GEELONG"
  ∧ normalizeName (JStr (js "GREATER   GEELONG!!")) = js "GREATER   GEELONG"
  ∧ normalizeName (JStr (js "Greater Geelong"))
    ≠ normalizeName (JStr (js "GREATER   GEELONG!!"))
  ∧ normalizeName (JStr (js "GREATER GEELONG!!"))
    = normalizeName (JStr (js "Greater Geelong")).
Proof. vm_compute. repeat split; try done. Qed.

(** ** Column detection *)

Lemma isNumCol_spec (rows : list Row) (c : jsstring) :
  isNumCol rows c = true ↔ numeric_column rows c.
Proof.
  unfold isNumCol, numeric_column. rewrite existsb_exists.
  split.
  - intros (r & Hr & Hn). exists r. split; [by apply list_elem_of_In|].
    destruct (row_get r c); try done. by eexists.
  - intros (r & Hr & x & Hx). exists r. split; [by apply list_elem_of_In|].
    by rewrite Hx.
Qed.

Lemma ci_startsWith_spec (pat s : jsstring) :
  ci_startsWith s pat = true
  ↔ ∃ post, map ascii_upper s = map ascii_upper pat ++ post.
Proof.
  revert s. induction pat as [|p pat IH]; intros s; simpl.
  - split; [by eexists|done].
  - destruct s as [|c s]; simpl.
    + split; [done|]. by intros [post ?].
    + rewrite andb_true_iff, IH, N.eqb_eq. split.
      * intros (-> & post & ->). by exists post.
      * intros (post & Heq). injection Heq as -> Heq. split; [done|].
        by exists post.
Qed.

Lemma ci_includes_spec (pat s : jsstring) :
  ci_includes s pat = true
  ↔ ∃ pre post, map ascii_upper s = pre ++ map ascii_upper pat ++ post.
Proof.
  induction s as [|c s IH]; simpl.
  - rewrite orb_false_r, ci_startsWith_spec. split.
    + intros [post Hp]. by exists [], post.
    + intros (pre & post & Hp). simpl in Hp.
      symmetry in Hp. apply app_eq_nil in Hp as [-> Hp]. simpl in Hp.
      exists post. by rewrite Hp.
  - rewrite orb_true_iff, ci_startsWith_spec, IH. simpl. split.
    + intros [[post Hp]|(pre & post & Hp)].
      * by exists [], post.
      * exists (ascii_upper c :: pre), post. simpl. by rewrite Hp.
    + intros (pre & post & Hp). destruct pre as [|c' pre]; simpl in Hp.
      * left. by exists post.
      * right. injection Hp as _ Hp. by exists pre, post.
Qed.

Lemma is_priority_spec (c : jsstring) :
  is_priority c = true ↔ matches_vocabulary c.
Proof.
  unfold is_priority, matches_vocabulary. rewrite existsb_exists.
  split; intros (w & Hw & H); exists w.
  - split; [by apply list_elem_of_In|]. by apply ci_includes_spec.
  - split; [by apply list_elem_of_In|]. by apply ci_includes_spec.
Qed.

Lemma filter_selects {A} (P : A → Prop) (f : A → bool) (l : list A) :
  (∀ x, f x = true ↔ P x) → selects P l (List.filter f l).
Proof.
  tidy. intros Hf. induction l as [|x l IH]; simpl; [constructor|].
  destruct (f x) eqn:Hx.
  - apply selects_keep; [by apply Hf|done].
  - apply selects_drop; [|done]. rewrite <- Hf. congruence.
Qed.

(** C9, as the code has it: [detectValueColumns] looks at the columns of
    the header only, the keys of the first row.  Of these it takes as
    numeric the ones some row holds a number in; it returns the numeric
    ones whose header matches the vocabulary, case set aside, when there
    are any, otherwise the first numeric one alone, otherwise nothing; an
    empty table gives the empty list.  A column the first row lacks is
    never returned. *)
Theorem detectValueColumns_spec :
  (∀ rows c, isNumCol rows c = true ↔ numeric_column rows c)
  ∧ (∀ c, is_priority c = true ↔ matches_vocabulary c)
  ∧ detectValueColumns [] = []
  ∧ (∀ r0 rest,
       let rows := r0 :: rest in
       ∃ numeric priority,
         selects (numeric_column rows) (Object_keys r0) numeric
         ∧ selects matches_vocabulary numeric priority
         ∧ detectValueColumns rows =
             match priority, numeric with
             | _ :: _, _ => priority
             | [], first :: _ => [first]
             | [], [] => []
             end
         ∧ Forall (λ c, c ∈ Object_keys r0) (detectValueColumns rows)).
Proof.
  tidy.
  split; [apply isNumCol_spec|]. split; [apply is_priority_spec|].
  split; [done|].
  intros r0 rest rows.
  exists (List.filter (isNumCol rows) (Object_keys r0)).
  exists (List.filter is_priority
            (List.filter (isNumCol rows) (Object_keys r0))).
  split; [apply filter_selects, isNumCol_spec|].
  split; [apply filter_selects, is_priority_spec|].
  unfold detectValueColumns, rows. fold rows.
  set (numeric := List.filter (isNumCol rows) (Object_keys r0)).
  assert (Forall (λ c, c ∈ Object_keys r0) numeric) as Hnum.
  { apply Forall_forall. intros c Hc.
    apply list_elem_of_In, filter_In in Hc as [Hc _].
    by apply list_elem_of_In. }
  assert (Forall (λ c, c ∈ Object_keys r0)
            (List.filter is_priority numeric)) as Hpri.
  { apply Forall_forall. intros c Hc.
    apply list_elem_of_In, filter_In in Hc as [Hc _].
    rewrite Forall_forall in Hnum. by apply Hnum, list_elem_of_In. }
  destruct (List.filter is_priority numeric) as [|c priority]; simpl.
  - destruct numeric as [|first numeric']; simpl; [done|].
    split; [done|]. apply Forall_cons in Hnum as [H _].
    by apply Forall_singleton.
  - done.
Qed.

(** ** Maps in insertion order *)

Lemma map_get_set {V} (m : JsMap V) (k k' : jsstring) (v : V) :
  map_get (map_set m k v) k' = if decide (k = k') then Some v else map_get m k'.
Proof.
  induction m as [|[k0 v0] m IH]; simpl.
  - by destruct (decide (k = k')).
  - destruct (decide (k0 = k)) as [->|Hne]; simpl.
    + by destruct (decide (k = k')).
    + destruct (decide (k0 = k')) as [->|Hne'].
      * by rewrite decide_False by done.
      * exact IH.
Qed.

Lemma map_get_None {V} (m : JsMap V) (k : jsstring) :
  map_get m k = None ↔ k ∉ m.*1.
Proof.
  induction m as [|[k0 v0] m IH]; simpl.
  - split; [intros _; apply not_elem_of_nil|done].
  - rewrite not_elem_of_cons. destruct (decide (k0 = k)) as [->|Hne].
    + split; [done|]. by intros [? _].
    + rewrite IH. split; [by intros ?; split|by intros [_ ?]].
Qed.

Lemma map_set_keys {V} (m : JsMap V) (k : jsstring) (v : V) :
  (map_set m k v).*1 = if decide (k ∈ m.*1) then m.*1 else m.*1 ++ [k].
Proof.
  induction m as [|[k0 v0] m IH]; csimpl; [done|].
  destruct (decide (k0 = k)) as [->|Hne]; csimpl.
  - by rewrite decide_True by apply list_elem_of_here.
  - rewrite IH. destruct (decide (k ∈ m.*1)) as [Hin|Hnin].
    + by rewrite decide_True by by apply list_elem_of_further.
    + rewrite decide_False; [done|].
      rewrite elem_of_cons. intros [->|?]; done.
Qed.

Lemma map_get_elem_of {V} (m : JsMap V) (k : jsstring) (v : V) :
  map_get m k = Some v → (k, v) ∈ m.
Proof.
  induction m as [|[k0 v0] m IH]; simpl; [done|].
  destruct (decide (k0 = k)) as [->|Hne].
  - intros [= ->]. apply list_elem_of_here.
  - intros H. by apply list_elem_of_further, IH.
Qed.

Lemma elem_of_map_get {V} (m : JsMap V) (k : jsstring) (v : V) :
  NoDup m.*1 → (k, v) ∈ m → map_get m k = Some v.
Proof.
  induction m as [|[k0 v0] m IH]; simpl.
  - intros _ H. by apply elem_of_nil in H.
  - intros Hnd Hin. apply NoDup_cons in Hnd as [Hk0 Hnd].
    apply elem_of_cons in Hin as [[= -> ->]|Hin].
    + by rewrite decide_True.
    + destruct (decide (k0 = k)) as [->|Hne]; [|by apply IH].
      exfalso. apply Hk0. apply list_elem_of_fmap. by exists (k, v).
Qed.

(** ** Keys in first-seen order *)

Lemma elem_of_first_seen (l : list jsstring) (x : jsstring) :
  x ∈ first_seen l ↔ x ∈ l.
Proof.
  tidy.
  induction l as [|a l IH]; simpl; [done|].
  rewrite !elem_of_cons, list_elem_of_filter, IH.
  destruct (decide (x = a)); tauto.
Qed.

Lemma NoDup_first_seen (l : list jsstring) : NoDup (first_seen l).
Proof.
  tidy.
  induction l as [|a l IH]; simpl; [constructor|].
  apply NoDup_cons. split.
  - rewrite list_elem_of_filter. tauto.
  - by apply NoDup_filter.
Qed.

Lemma first_seen_snoc (l : list jsstring) (x : jsstring) :
  first_seen (l ++ [x])
  = if decide (x ∈ l) then first_seen l else first_seen l ++ [x].
Proof.
  tidy.
  induction l as [|a l IH]; csimpl; [done|].
  rewrite IH. destruct (decide (x ∈ l)) as [Hin|Hnin].
  - by rewrite decide_True by by apply list_elem_of_further.
  - rewrite filter_app, filter_cons, filter_nil.
    destruct (decide (x ≠ a)) as [Hne|Heq];
      destruct (decide (x ∈ a :: l)) as [Hin|Hnin'].
    + apply elem_of_cons in Hin. tauto.
    + done.
    + by rewrite app_nil_r.
    + rewrite elem_of_cons in Hnin'. destruct (decide (x = a)); tauto.
Qed.

(** ** Metric slots *)

Lemma js_inj (s t : string) : js s = js t → s = t.
Proof.
  unfold js. intros H.
  assert (list_ascii_of_string s = list_ascii_of_string t) as H'.
  { revert H. generalize (list_ascii_of_string s) (list_ascii_of_string t).
    induction l as [|a l IH]; intros [|b k]; simpl; try done.
    intros [= Hab Hlk]. f_equal; [|by apply IH].
    rewrite <- (ascii_N_embedding a), <- (ascii_N_embedding b).
    by rewrite Hab. }
  rewrite <- (string_of_list_ascii_of_string s).
  rewrite <- (string_of_list_ascii_of_string t). by rewrite H'.
Qed.

Lemma decimal_inj (n m : nat) : decimal n = decimal m → n = m.
Proof.
  unfold decimal. intros H%js_inj.
  assert (Some (Nat.to_uint n) = Some (Nat.to_uint m)) as [= H'].
  { rewrite <- !NilEmpty.usu. by rewrite H. }
  rewrite <- (DecimalNat.Unsigned.of_to n), <- (DecimalNat.Unsigned.of_to m).
  by rewrite H'.
Qed.

Lemma metric_key_inj (i j : nat) : metric_key i = metric_key j → i = j.
Proof.
  unfold metric_key. intros H%app_inv_head%decimal_inj. lia.
Qed.

Lemma add_metrics_lookup (r : Row) (cols : list jsstring) (idx : nat)
    (ms : gmap jsstring float) (j : nat) :
  add_metrics r cols idx ms !! metric_key j
  = if decide (idx ≤ j)%nat
    then add_to_slot (ms !! metric_key j)
           (cols !! (j - idx)%nat ≫= finite_cell r)
    else ms !! metric_key j.
Proof.
  revert idx ms. induction cols as [|c cols IH]; intros idx ms; simpl.
  - by destruct (decide (idx ≤ j)%nat).
  - rewrite IH. clear IH.
    set (ms' := if PrimFloat.is_finite (ToNumber (row_get r c)) then _ else ms).
    destruct (decide (S idx ≤ j)%nat) as [Hlt|Hge].
    + rewrite decide_True by lia.
      replace (j - idx)%nat with (S (j - S idx)) by lia. simpl.
      assert (ms' !! metric_key j = ms !! metric_key j) as ->; [|done].
      unfold ms'. destruct (PrimFloat.is_finite _); [|done].
      apply lookup_insert_ne. intros ?%metric_key_inj. lia.
    + destruct (decide (idx ≤ j)%nat) as [Hle|Hgt].
      * assert (j = idx) as -> by lia. rewrite Nat.sub_diag. simpl.
        unfold ms', finite_cell.
        destruct (PrimFloat.is_finite _); simpl; [|done].
        by rewrite lookup_insert_eq.
      * unfold ms'. destruct (PrimFloat.is_finite _); [|done].
        apply lookup_insert_ne. intros ?%metric_key_inj. lia.
Qed.

(** The loop writes metric slots only. *)
Lemma add_metrics_other (r : Row) (cols : list jsstring) (idx : nat)
    (ms : gmap jsstring float) (s : jsstring) :
  (∀ j, s ≠ metric_key j) →
  add_metrics r cols idx ms !! s = ms !! s.
Proof.
  intros Hs. revert idx ms.
  induction cols as [|c cols IH]; intros idx ms; simpl; [done|].
  rewrite IH. destruct (PrimFloat.is_finite _); [|done].
  apply lookup_insert_ne. by intros <-; eapply Hs.
Qed.

Lemma float_sum_snoc (l : list float) (cell : option float) :
  add_to_slot (float_sum l) cell = float_sum (l ++ option_list cell).
Proof.
  destruct cell as [v|]; simpl; [|by rewrite app_nil_r].
  destruct l as [|x l]; simpl; [done|].
  by rewrite fold_left_app.
Qed.

(** ** Aggregation: the rows that take part *)

Lemma mapped_rows_run (lgaCol : jsstring) (cols : list jsstring)
    (rows : list Row) (m : JsMap Bucket.t) :
  fold_left (mapped_row lgaCol cols) rows m
  = run (omap (λ r, let n := region_name lgaCol r in
                    if is_empty n then None
                    else Some (Contributing n r cols)) rows) m.
Proof.
  revert m. induction rows as [|r rows IH]; intros m; simpl; [done|].
  rewrite IH. unfold mapped_row.
  by destruct (is_empty (region_name lgaCol r)).
Qed.

Lemma mapped_file_run (f : FileMapping.t) (m : JsMap Bucket.t) :
  mapped_file m f = run (contributing_rows_of f) m.
Proof.
  unfold mapped_file, contributing_rows_of.
  destruct (FileMapping.lgaCol f) as [lgaCol|]; [|done].
  destruct (is_empty lgaCol || is_empty (FileMapping.valueCols f)); [done|].
  apply mapped_rows_run.
Qed.

Lemma run_app (evs evs' : list contributing) (m : JsMap Bucket.t) :
  run (evs ++ evs') m = run evs' (run evs m).
Proof. apply fold_left_app. Qed.

Lemma mapped_files_run (files : list FileMapping.t) (m : JsMap Bucket.t) :
  fold_left mapped_file files m = run (contributing_rows files) m.
Proof.
  revert m. induction files as [|f files IH]; intros m; simpl; [done|].
  unfold contributing_rows in *. simpl.
  by rewrite run_app, IH, mapped_file_run.
Qed.

Lemma rows_of_key_snoc (k : jsstring) (evs : list contributing)
    (ev : contributing) :
  rows_of_key k (evs ++ [ev])
  = rows_of_key k evs ++ (if decide (row_key ev = k) then [ev] else []).
Proof.
  unfold rows_of_key. rewrite filter_app, filter_cons, filter_nil.
  by destruct (decide (row_key ev = k)).
Qed.

Lemma rows_of_key_nil (k : jsstring) (evs : list contributing) :
  k ∉ row_key <$> evs → rows_of_key k evs = [].
Proof.
  intros Hk. unfold rows_of_key.
  induction evs as [|ev evs IH]; [done|].
  rewrite fmap_cons, not_elem_of_cons in Hk. destruct Hk as [Hne Hk].
  rewrite filter_cons, decide_False by done. by apply IH.
Qed.

(** What the aggregation map holds after the rows [evs]. *)
Lemma run_spec (evs : list contributing) :
  (run evs []).*1 = first_seen (row_key <$> evs)
  ∧ ∀ k b, map_get (run evs []) k = Some b →
      first_name k evs = Some (Bucket.name b)
      ∧ (∀ i, Bucket.metrics b !! metric_key i
              = float_sum (contributions k i evs))
      ∧ (∀ s, (∀ j, s ≠ metric_key j) → Bucket.metrics b !! s = None).
Proof.
  induction evs as [|ev evs [IHk IHb]] using rev_ind; [done|].
  rewrite run_app. simpl. unfold upsert. fold (row_key ev).
  set (M := run evs []) in *. set (key := row_key ev).
  split.
  - rewrite map_set_keys, fmap_app. change (row_key <$> [ev]) with [key].
    rewrite first_seen_snoc, IHk.
    destruct (decide (key ∈ row_key <$> evs)) as [Hin|Hnin].
    + by rewrite decide_True by by apply elem_of_first_seen.
    + by rewrite decide_False by by rewrite elem_of_first_seen.
  - intros k b. rewrite map_get_set.
    unfold first_name, contributions. rewrite rows_of_key_snoc.
    destruct (decide (key = k)) as [<-|Hne].
    + intros [= <-]. simpl. rewrite decide_True by done.
      destruct (map_get M key) as [b0|] eqn:Hget; simpl.
      * destruct (IHb key b0 Hget) as (Hn & Hm & Ho).
        split; [|split].
        -- unfold first_name in Hn.
           destruct (rows_of_key key evs); simpl in *; done.
        -- intros i. rewrite add_metrics_lookup, decide_True by lia.
           rewrite Nat.sub_0_r, Hm, float_sum_snoc.
           unfold contributions. rewrite omap_app. simpl.
           by destruct (the_cols ev !! i ≫= finite_cell (the_row ev)).
        -- intros s Hs. rewrite add_metrics_other by done. by apply Ho.
      * apply map_get_None in Hget. rewrite IHk, elem_of_first_seen in Hget.
        rewrite (rows_of_key_nil _ _ Hget). simpl.
        split; [done|]. split.
        -- intros i. rewrite add_metrics_lookup, decide_True by lia.
           rewrite Nat.sub_0_r, lookup_empty. simpl.
           by destruct (the_cols ev !! i ≫= finite_cell (the_row ev)).
        -- intros s Hs. rewrite add_metrics_other by done.
           apply lookup_empty.
    + fold key. rewrite decide_False by done. rewrite !app_nil_r.
      apply IHb.
Qed.

Lemma aggregate_run (files : list FileMapping.t) :
  aggregateByLgaWithMapping files = entries (run (contributing_rows files) []).
Proof. unfold aggregateByLgaWithMapping. by rewrite mapped_files_run. Qed.

Lemma entries_keys (m : JsMap Bucket.t) : Region.key <$> entries m = m.*1.
Proof.
  unfold entries. induction m as [|[k b] m IH]; csimpl; [done|].
  by f_equal.
Qed.

Lemma elem_of_entries (m : JsMap Bucket.t) (e : Region.t) :
  e ∈ entries m →
  (Region.key e, Bucket.mk (Region.name e) (Region.metrics e)) ∈ m.
Proof.
  unfold entries. intros ([k [n ms]] & -> & Hin)%list_elem_of_fmap. exact Hin.
Qed.

(** C1: the list [aggregateByLgaWithMapping] returns has exactly one entry
    per distinct normalised key of the rows that take part (rows of the
    mappings with a region column set, that is neither [null] nor the
    empty string, and at least one value column, whose region cell is not
    blank once coerced and trimmed), in the order the keys were first
    seen; the entry's name is the trimmed raw name of the first row of
    its key, and its [metric_{i+1}] is the sum, in the order met, of the
    [i]-th value-column cells of the rows of its key that coerce to a
    finite number (the slot exists once there is such a cell). *)
Theorem aggregateByLgaWithMapping_spec (files : list FileMapping.t) :
  let evs := contributing_rows files in
  let out := aggregateByLgaWithMapping files in
  Region.key <$> out = first_seen (row_key <$> evs)
  ∧ NoDup (Region.key <$> out)
  ∧ (∀ k, k ∈ Region.key <$> out ↔ k ∈ row_key <$> evs)
  ∧ Forall (λ e,
      first_name (Region.key e) evs = Some (Region.name e)
      ∧ ∀ i, Region.metrics e !! metric_key i
             = float_sum (contributions (Region.key e) i evs)) out.
Proof.
  intros evs out. unfold out. rewrite aggregate_run. fold evs.
  destruct (run_spec evs) as [Hk Hb]. rewrite entries_keys, Hk.
  split; [done|]. split; [apply NoDup_first_seen|].
  split; [intros k; apply elem_of_first_seen|].
  apply Forall_forall. intros e He%elem_of_entries.
  apply elem_of_map_get in He; [|rewrite Hk; apply NoDup_first_seen].
  destruct (Hb _ _ He) as (Hn & Hm & _). by split.
Qed.

Lemma is_empty_nil {A} (l : list A) : is_empty l = true ↔ l = [].
Proof. by destruct l. Qed.




(** ** Keys of the aggregation map *)

Lemma Forall_map_set {V} (P : jsstring * V → Prop) (m : JsMap V)
    (k : jsstring) (v : V) :
  Forall P m → P (k, v) → Forall P (map_set m k v).
Proof.
  intros Hm Hkv. induction Hm as [|[k0 v0] m H0 Hm IH]; simpl.
  - by constructor.
  - destruct (decide (k0 = k)); by constructor.
Qed.

Lemma NoDup_map_set {V} (m : JsMap V) (k : jsstring) (v : V) :
  NoDup m.*1 → NoDup (map_set m k v).*1.
Proof.
  intros Hm. rewrite map_set_keys.
  destruct (decide (k ∈ m.*1)) as [Hin|Hnin]; [done|].
  apply NoDup_app. split; [done|]. split.
  - intros x Hx ->%list_elem_of_singleton. done.
  - apply NoDup_singleton.
Qed.

Lemma upsert_keyed (m : JsMap Bucket.t) (name : jsstring) (r : Row)
    (cols : list jsstring) :
  keyed m → keyed (upsert m name r cols).
Proof.
  intros [Hnd Hall]. unfold upsert. split; [by apply NoDup_map_set|].
  apply Forall_map_set; [done|]. simpl.
  destruct (map_get m (normalizeName (JStr name))) as [b|] eqn:Hget;
    simpl; [|done].
  apply map_get_elem_of in Hget.
  by apply (proj1 (Forall_forall _ _) Hall) in Hget.
Qed.

Lemma fold_left_preserves {A B} (P : A → Prop) (f : A → B → A)
    (l : list B) (a : A) :
  (∀ a b, P a → P (f a b)) → P a → P (fold_left f l a).
Proof.
  intros Hf. revert a. induction l as [|b l IH]; intros a Ha; simpl; [done|].
  by apply IH, Hf.
Qed.

Lemma mapped_file_keyed (m : JsMap Bucket.t) (f : FileMapping.t) :
  keyed m → keyed (mapped_file m f).
Proof.
  intros Hm. unfold mapped_file.
  destruct (FileMapping.lgaCol f) as [lgaCol|]; [|done].
  destruct (is_empty lgaCol || is_empty (FileMapping.valueCols f)); [done|].
  apply fold_left_preserves; [|done].
  intros m' r Hm'. unfold mapped_row.
  destruct (is_empty (region_name lgaCol r)); [done|]. by apply upsert_keyed.
Qed.

Lemma detected_file_keyed (m : JsMap Bucket.t) (rows : list Row) :
  keyed m → keyed (detected_file m rows).
Proof.
  intros Hm. unfold detected_file.
  destruct (detectLgaColumn rows) as [lgaCol|]; [|done].
  destruct (is_empty lgaCol); [done|].
  destruct (is_empty (detectValueColumns rows)); [done|].
  apply fold_left_preserves; [|done].
  intros m' r Hm'. unfold detected_row.
  destruct (is_empty _); [done|]. by apply upsert_keyed.
Qed.

Lemma entries_keyed (m : JsMap Bucket.t) :
  keyed m →
  NoDup (Region.key <$> entries m)
  ∧ Forall (λ e, Region.key e = normalizeName (JStr (Region.name e)))
      (entries m).
Proof.
  intros [Hnd Hall]. rewrite entries_keys. split; [done|].
  unfold entries. apply Forall_fmap.
  eapply Forall_impl; [exact Hall|]. by intros [k b].
Qed.

Lemma keyed_nil : keyed [].
Proof. split; constructor. Qed.

(** C10: in the list either aggregator returns, the keys of the entries
    are pairwise distinct and each entry's key is the normalised form of
    that entry's own display name. *)
Theorem aggregate_keys_distinct_and_normalised
    (files : list FileMapping.t) (filesRows : list (list Row)) :
  (NoDup (Region.key <$> aggregateByLgaWithMapping files)
   ∧ Forall (λ e, Region.key e = normalizeName (JStr (Region.name e)))
       (aggregateByLgaWithMapping files))
  ∧ (NoDup (Region.key <$> aggregateByLga filesRows)
     ∧ Forall (λ e, Region.key e = normalizeName (JStr (Region.name e)))
         (aggregateByLga filesRows)).
Proof.
  split; apply entries_keyed.
  - apply fold_left_preserves; [apply mapped_file_keyed|apply keyed_nil].
  - apply fold_left_preserves; [apply detected_file_keyed|apply keyed_nil].
Qed.

(** ** Rows and files that are passed over *)

Lemma contributing_rows_app (fs fs' : list FileMapping.t) :
  contributing_rows (fs ++ fs')
  = contributing_rows fs ++ contributing_rows fs'.
Proof. unfold contributing_rows. apply bind_app. Qed.

Lemma contributing_rows_cons (f : FileMapping.t) (fs : list FileMapping.t) :
  contributing_rows (f :: fs)
  = contributing_rows_of f ++ contributing_rows fs.
Proof. done. Qed.

Lemma region_name_blank (lgaCol : jsstring) (r : Row) :
  is_nullish (row_get r lgaCol) = true
  ∨ trim (ToString (row_get r lgaCol)) = [] →
  region_name lgaCol r = [].
Proof.
  unfold region_name. intros [->|Hb]; [done|].
  by destruct (is_nullish _).
Qed.

Lemma blank_row_passed_over (n : jsstring) (rs1 rs2 : list Row) (r : Row)
    (oc : option jsstring) (cols : list jsstring) :
  (∀ lgaCol, oc = Some lgaCol → region_name lgaCol r = []) →
  contributing_rows_of (FileMapping.mk n (rs1 ++ r :: rs2) oc cols)
  = contributing_rows_of (FileMapping.mk n (rs1 ++ rs2) oc cols).
Proof.
  intros Hr. unfold contributing_rows_of. simpl.
  destruct oc as [lgaCol|]; [|done].
  destruct (is_empty lgaCol || is_empty cols); [done|].
  rewrite !omap_app. csimpl. by rewrite (Hr lgaCol eq_refl).
Qed.

Lemma unmapped_file_passed_over (f : FileMapping.t) :
  FileMapping.lgaCol f = None ∨ FileMapping.lgaCol f = Some []
  ∨ FileMapping.valueCols f = [] ∨ FileMapping.rows f = [] →
  contributing_rows_of f = [].
Proof.
  unfold contributing_rows_of.
  intros [->|[->|[Hc|Hr]]]; [done|done| |].
  - rewrite Hc. destruct (FileMapping.lgaCol f); [|done].
    by rewrite orb_true_r.
  - rewrite Hr. destruct (FileMapping.lgaCol f); [|done].
    by destruct (_ || _).
Qed.

Lemma mapped_row_slot (m : JsMap Bucket.t) (lgaCol : jsstring)
    (cols : list jsstring) (r : Row) (j : nat) (c : jsstring) :
  region_name lgaCol r ≠ [] → cols !! j = Some c →
  ∃ b,
    map_get (mapped_row lgaCol cols m r)
      (normalizeName (JStr (region_name lgaCol r))) = Some b
    ∧ Bucket.metrics b !! metric_key j
      = add_to_slot
          (map_get m (normalizeName (JStr (region_name lgaCol r)))
             ≫= λ b0, Bucket.metrics b0 !! metric_key j)
          (finite_cell r c).
Proof.
  intros Hn Hj. unfold mapped_row.
  destruct (region_name lgaCol r) as [|y n] eqn:En; [done|]. simpl.
  unfold upsert. rewrite map_get_set, decide_True by done.
  eexists. split; [done|]. simpl.
  rewrite add_metrics_lookup, decide_True by lia.
  rewrite Nat.sub_0_r, Hj. simpl.
  by destruct (map_get m (normalizeName (JStr (y :: n)))).
Qed.

(** C8: aggregation absorbs bad input.  A row whose region cell is null,
    missing or blank is passed over; a value cell that does not coerce to
    a finite number leaves its own metric slot as it was, while every
    other value column of the row still adds into its slot; a mapping
    with no region column, or with no value column, adds nothing; and a
    mapping with no rows adds nothing, so that on its own it gives an
    empty list. *)
Theorem aggregation_absorbs_bad_input :
  (∀ pre post n rs1 r rs2 lgaCol cols,
     is_nullish (row_get r lgaCol) = true
     ∨ trim (ToString (row_get r lgaCol)) = [] →
     aggregateByLgaWithMapping
       (pre ++ FileMapping.mk n (rs1 ++ r :: rs2) (Some lgaCol) cols :: post)
     = aggregateByLgaWithMapping
         (pre ++ FileMapping.mk n (rs1 ++ rs2) (Some lgaCol) cols :: post))
  ∧ (∀ m lgaCol cols r j c,
       region_name lgaCol r ≠ [] → cols !! j = Some c →
       let key := normalizeName (JStr (region_name lgaCol r)) in
       let old := map_get m key ≫= λ b0, Bucket.metrics b0 !! metric_key j in
       let v := ToNumber (row_get r c) in
       ∃ b, map_get (mapped_row lgaCol cols m r) key = Some b
            ∧ Bucket.metrics b !! metric_key j
              = if PrimFloat.is_finite v
                then Some (default PrimFloat.zero old + v)%float
                else old)
  ∧ (∀ pre f post,
       FileMapping.lgaCol f = None ∨ FileMapping.lgaCol f = Some []
       ∨ FileMapping.valueCols f = [] ∨ FileMapping.rows f = [] →
       aggregateByLgaWithMapping (pre ++ f :: post)
       = aggregateByLgaWithMapping (pre ++ post))
  ∧ (∀ f, FileMapping.rows f = [] → aggregateByLgaWithMapping [f] = []).
Proof.
  split; [|split; [|split]].
  - intros pre post n rs1 r rs2 lgaCol cols Hr%region_name_blank.
    rewrite !aggregate_run, !contributing_rows_app, !contributing_rows_cons.
    rewrite blank_row_passed_over; [done|]. by intros ? [= <-].
  - intros m lgaCol cols r j c Hn Hj key old v.
    destruct (mapped_row_slot m lgaCol cols r j c Hn Hj) as (b & Hb & Hs).
    exists b. split; [done|]. rewrite Hs. unfold finite_cell. fold v.
    by destruct (PrimFloat.is_finite v).
  - intros pre f post Hf%unmapped_file_passed_over.
    rewrite !aggregate_run, !contributing_rows_app, contributing_rows_cons.
    by rewrite Hf.
  - intros f Hr. rewrite aggregate_run, contributing_rows_cons.
    rewrite unmapped_file_passed_over by tauto. done.
Qed.

(** ** Geo merge *)

Lemma build_lookup_snoc (agg : list Region.t) (a : Region.t) :
  build_lookup (agg ++ [a]) = map_set (build_lookup agg) (Region.key a) a.
Proof. unfold build_lookup. by rewrite fold_left_app. Qed.

Lemma build_lookup_get (agg : list Region.t) (k : jsstring) :
  map_get (build_lookup agg) k = lookup_bucket agg k.
Proof.
  unfold lookup_bucket.
  induction agg as [|a agg IH] using rev_ind; [done|].
  rewrite build_lookup_snoc, map_get_set, filter_app, filter_cons, filter_nil.
  destruct (decide (Region.key a = k)) as [Hk|Hk].
  - by rewrite last_snoc.
  - by rewrite app_nil_r.
Qed.

Lemma name_in_nameFields : js "name" ∈ nameFields.
Proof. apply list_elem_of_In. vm_compute. tauto. Qed.

Lemma feature_key_resolved (props : gmap jsstring value) :
  feature_key props = normalizeName <$> resolved_name props.
Proof.
  unfold feature_key, field_key, resolved_name, candidate_name.
  destruct (List.find _ nameFields) as [nf|] eqn:Hfind; simpl.
  - destruct (is_empty (normalizeName (prop_get props nf))); simpl; [|done].
    by destruct (truthy (prop_get props (js "name"))).
  - pose proof (find_none _ _ Hfind (js "name")) as Hname.
    rewrite Hname; [done|]. apply list_elem_of_In, name_in_nameFields.
Qed.

Lemma merge_feature_matched (agg : list Region.t) (f : Feature.t)
    (n : nat) :
  merge_feature (build_lookup agg) f n
  = match matched agg f with
    | Some hit =>
        (Feature.mk (Some (Object_assign (props_of f) (Region.metrics hit))),
         S n)
    | None => (Feature.mk (Some (props_of f)), n)
    end.
Proof.
  unfold merge_feature, matched. fold (props_of f).
  rewrite feature_key_resolved.
  destruct (normalizeName <$> resolved_name (props_of f)) as [[|c k]|];
    simpl; try done.
  by rewrite build_lookup_get.
Qed.

Lemma merge_features_spec (agg : list Region.t) (fs : list Feature.t)
    (n : nat) :
  merge_features (build_lookup agg) fs n
  = ((λ f, (merge_feature (build_lookup agg) f 0).1) <$> fs,
     (n + length (filter (λ f, is_Some (matched agg f)) fs))%nat).
Proof.
  revert n. induction fs as [|f fs IH]; intros n; csimpl.
  - by rewrite Nat.add_0_r.
  - rewrite filter_cons, !merge_feature_matched.
    destruct (matched agg f) as [hit|]; simpl; rewrite IH.
    + f_equal. lia.
    + done.
Qed.

Lemma Object_assign_lookup (props : gmap jsstring value)
    (metrics : gmap jsstring float) (s : jsstring) :
  Object_assign props metrics !! s
  = match metrics !! s with
    | Some x => Some (JNum x)
    | None => props !! s
    end.
Proof.
  unfold Object_assign. rewrite lookup_union, lookup_fmap.
  destruct (metrics !! s); simpl; [|by rewrite (left_id_L None _)].
  by destruct (props !! s).
Qed.

Lemma lookup_bucket_elem_of (agg : list Region.t) (k : jsstring)
    (hit : Region.t) :
  lookup_bucket agg k = Some hit → hit ∈ agg ∧ Region.key hit = k.
Proof.
  tidy.
  unfold lookup_bucket. intros [l Hl]%last_Some.
  assert (hit ∈ filter (λ a, Region.key a = k) agg) as Hin.
  { rewrite Hl. apply elem_of_app. right. apply list_elem_of_here. }
  apply list_elem_of_filter in Hin. tauto.
Qed.

Lemma matched_elem_of (agg : list Region.t) (f : Feature.t)
    (hit : Region.t) :
  matched agg f = Some hit → hit ∈ agg.
Proof.
  unfold matched.
  destruct (normalizeName <$> resolved_name (props_of f)) as [[|c k]|];
    try done.
  by intros [? _]%lookup_bucket_elem_of.
Qed.

Lemma merged_features (geo : FeatureCollection.t) (agg : list Region.t) :
  FeatureCollection.features (mergeMetricsIntoGeoJSON geo agg)
  = (λ f, (merge_feature (build_lookup agg) f 0).1)
      <$> FeatureCollection.features geo.
Proof.
  unfold mergeMetricsIntoGeoJSON. by rewrite merge_features_spec.
Qed.


(** C3, as the code has it: the summary of the merged collection counts
    in [_attached_count] the features whose name found a bucket and in
    [_total_features] all the features; a feature that found no bucket is
    in the second count only.  The first count is the number of features
    that received a metric when every bucket holds at least one. *)
Theorem mergeMetricsIntoGeoJSON_summary (geo : FeatureCollection.t)
    (agg : list Region.t) :
  let fs := FeatureCollection.features geo in
  let out := mergeMetricsIntoGeoJSON geo agg in
  FeatureCollection.properties out
  = Some (mkSummary (length (filter (λ f, is_Some (matched agg f)) fs))
            (length fs))
  ∧ length (FeatureCollection.features out) = length fs
  ∧ (Forall (λ a, Region.metrics a ≠ ∅) agg →
     FeatureCollection.properties out
     = Some (mkSummary (length (filter (received_metric agg) fs))
               (length fs))).
Proof.
  intros fs out.
  assert (FeatureCollection.properties out
          = Some (mkSummary
                    (length (filter (λ f, is_Some (matched agg f)) fs))
                    (length fs))) as Hsum.
  { unfold out, mergeMetricsIntoGeoJSON. fold fs.
    by rewrite merge_features_spec. }
  split; [done|]. split.
  - unfold out. by rewrite merged_features, length_fmap.
  - intros Hagg. rewrite Hsum. do 3 f_equal.
    apply list_filter_iff. intros f. unfold received_metric.
    destruct (matched agg f) as [hit|] eqn:Hm.
    + split; [|done]. intros _.
      apply matched_elem_of in Hm.
      by apply (proj1 (Forall_forall _ _) Hagg).
    + split; [by intros [? ?]|done].
Qed.

(** ** Further properties of normalisation *)

Lemma upper_cp_case (c d : N) :
  ascii_upper c = ascii_upper d → upper_cp c = upper_cp d.
Proof.
  unfold upper_cp, ascii_upper.
  destruct (N.ltb_spec c 128), (N.ltb_spec d 128),
    (N.leb_spec 97 c), (N.leb_spec c 122),
    (N.leb_spec 97 d), (N.leb_spec d 122); simpl; intros Heq;
    first [by rewrite Heq | by subst | lia].
Qed.

Lemma toUpperCase_case (s t : jsstring) :
  map ascii_upper s = map ascii_upper t → toUpperCase s = toUpperCase t.
Proof.
  unfold toUpperCase. revert t.
  induction s as [|c s IH]; intros [|d t]; simpl; try done.
  intros [= Hc Hs]. by rewrite (upper_cp_case c d Hc), (IH t Hs).
Qed.

(** X1: letter case is ignored: two strings that agree once their ASCII
    letters are folded have the same key. *)
Theorem normalizeName_ignores_case (s t : jsstring) :
  map ascii_upper s = map ascii_upper t →
  normalizeName (JStr s) = normalizeName (JStr t).
Proof.
  intros H. unfold normalizeName. simpl. by rewrite (toUpperCase_case s t H).
Qed.

Lemma key_filter_app (s t : jsstring) :
  List.filter is_key_char (toUpperCase (s ++ t))
  = List.filter is_key_char (toUpperCase s)
    ++ List.filter is_key_char (toUpperCase t).
Proof.
  unfold toUpperCase. by rewrite flat_map_app, List.filter_app.
Qed.

Lemma key_filter_cons (c : N) (s : jsstring) :
  List.filter is_key_char (toUpperCase (c :: s))
  = List.filter is_key_char (upper_cp c)
    ++ List.filter is_key_char (toUpperCase s).
Proof. unfold toUpperCase. simpl. by rewrite List.filter_app. Qed.

Lemma punctuation_dropped (c : N) :
  ascii_punctuation c = true → List.filter is_key_char (upper_cp c) = [].
Proof.
  unfold ascii_punctuation, upper_cp.
  intros [Hc Hk]%andb_true_iff. rewrite Hc. simpl.
  by destruct (is_key_char (ascii_upper c)).
Qed.

(** X2: ASCII punctuation is ignored: deleting it from a string does not
    change the key. *)
Theorem normalizeName_ignores_punctuation (s : jsstring) :
  normalizeName (JStr (List.filter (λ c, negb (ascii_punctuation c)) s))
  = normalizeName (JStr s).
Proof.
  unfold normalizeName. simpl. f_equal.
  induction s as [|c s IH]; [done|].
  rewrite key_filter_cons, <- IH. cbn [List.filter].
  destruct (ascii_punctuation c) eqn:Hc; cbn [negb].
  - by rewrite (punctuation_dropped c Hc).
  - by rewrite key_filter_cons.
Qed.

Lemma trimStart_split (s : jsstring) :
  ∃ p, s = p ++ trimStart s ∧ Forall (λ c, is_space c = true) p.
Proof.
  tidy. induction s as [|c s (p & Hp & Hsp)]; simpl.
  - by exists [].
  - destruct (is_space c) eqn:Hc.
    + exists (c :: p). split; [by rewrite Hp at 1|by constructor].
    + by exists [].
Qed.

Lemma trim_split (s : jsstring) :
  ∃ p q, s = p ++ trim s ++ q
         ∧ Forall (λ c, is_space c = true) p
         ∧ Forall (λ c, is_space c = true) q.
Proof.
  tidy. destruct (trimStart_split s) as (p & Hp & Hsp).
  destruct (trimStart_split (rev (trimStart s))) as (q & Hq & Hsq).
  exists p, (rev q). split; [|split; [done|by apply Forall_rev]].
  unfold trim, trimEnd. rewrite <- rev_app_distr, <- Hq, rev_involutive.
  exact Hp.
Qed.

Lemma is_space_ascii (c : N) :
  is_space c = true → c < 128 → 9 ≤ c ≤ 13 ∨ c = 32.
Proof.
  tidy. unfold is_space.
  rewrite !orb_true_iff, !andb_true_iff, !N.leb_le, !N.eqb_eq. lia.
Qed.

Lemma trimStart_spaces_app (a y : jsstring) :
  Forall (λ c, c = 32) a → trimStart (a ++ y) = trimStart y.
Proof. tidy. induction 1 as [|c a -> _ IH]; simpl; done. Qed.

Lemma trimStart_app_spaces (x b : jsstring) :
  Forall (λ c, c = 32) b →
  trimStart (x ++ b)
  = match trimStart x with
    | [] => []
    | _ => trimStart x ++ b
    end.
Proof.
  tidy. intros Hb. induction x as [|c x IH]; simpl.
  - rewrite <- (app_nil_r b). by rewrite trimStart_spaces_app.
  - destruct (is_space c); [exact IH|done].
Qed.

Lemma trimEnd_app_spaces (y b : jsstring) :
  Forall (λ c, c = 32) b → trimEnd (y ++ b) = trimEnd y.
Proof.
  tidy. intros Hb. unfold trimEnd.
  by rewrite rev_app_distr, trimStart_spaces_app by by apply Forall_rev.
Qed.

Lemma trim_padded (a x b : jsstring) :
  Forall (λ c, c = 32) a → Forall (λ c, c = 32) b →
  trim (a ++ x ++ b) = trim x.
Proof.
  tidy. intros Ha Hb. unfold trim.
  rewrite trimStart_spaces_app, trimStart_app_spaces by done.
  destruct (trimStart x) as [|c k]; [done|].
  by apply trimEnd_app_spaces.
Qed.

Section WhiteSpace.

(** The upper-case form of a white-space character outside ASCII holds no
    character of [A-Z0-9 ] (in Unicode such a character is its own
    upper-case form). *)
Hypothesis space_upper :
  ∀ c, is_space c = true → 128 ≤ c →
       List.filter is_key_char (unicode_upper c) = [].

Lemma space_key_filter (p : jsstring) :
  Forall (λ c, is_space c = true) p →
  Forall (λ c, c = 32) (List.filter is_key_char (toUpperCase p)).
Proof using space_upper.
  induction 1 as [|c p Hc _ IH]; [constructor|].
  rewrite key_filter_cons. apply Forall_app. split; [|done].
  unfold upper_cp. destruct (N.ltb_spec c 128) as [Hlt|Hge].
  - destruct (is_space_ascii c Hc Hlt) as [Hr| ->]; [|by repeat constructor].
    unfold ascii_upper.
    destruct (N.leb_spec 97 c); [lia|]. simpl.
    destruct (is_key_char c) eqn:Hk; [|constructor].
    apply key_char_range in Hk. lia.
  - rewrite (space_upper c Hc Hge). constructor.
Qed.

Lemma normalizeName_trim (t : jsstring) :
  normalizeName (JStr (trim t)) = normalizeName (JStr t).
Proof using space_upper.
  destruct (trim_split t) as (p & q & Ht & Hp & Hq).
  unfold normalizeName. simpl. rewrite Ht at 2.
  rewrite !key_filter_app.
  by rewrite trim_padded by by apply space_key_filter.
Qed.

(** X3: for a row that is not passed over (its region name, the trimmed
    string of the cell, is not empty), the key the aggregators file it
    under, [normalizeName] of the trimmed name, is [normalizeName] of the
    cell as it stands: trimming first changes nothing. *)
Theorem row_key_of_raw_cell (lgaCol : jsstring) (r : Row) :
  region_name lgaCol r ≠ [] →
  normalizeName (JStr (region_name lgaCol r))
  = normalizeName (row_get r lgaCol).
Proof using space_upper.
  unfold region_name. destruct (is_nullish (row_get r lgaCol)) eqn:Hn;
    [done|]. intros _. rewrite normalizeName_trim.
  unfold normalizeName. by rewrite Hn.
Qed.

End WhiteSpace.

(** ** Further properties of column detection *)

Lemma find_first {A} (f : A → bool) (l : list A) (x : A) :
  List.find f l = Some x →
  ∃ pre post, l = pre ++ x :: post ∧ f x = true
              ∧ Forall (λ y, f y = false) pre.
Proof.
  tidy. induction l as [|a l IH]; simpl; [done|].
  destruct (f a) eqn:Ha.
  - intros [= ->]. exists [], l. by repeat split.
  - intros (pre & post & -> & Hx & Hpre)%IH.
    exists (a :: pre), post. repeat split; [done|by constructor].
Qed.

Lemma find_none_Forall {A} (f : A → bool) (l : list A) :
  List.find f l = None ↔ Forall (λ y, f y = false) l.
Proof.
  tidy. induction l as [|a l IH]; simpl; [by split; [constructor|]|].
  destruct (f a) eqn:Ha.
  - split; [done|]. intros [? _]%Forall_cons. congruence.
  - rewrite IH. split; [by constructor|by intros [_ ?]%Forall_cons].
Qed.

(** X4: [detectLgaColumn] only ever names a column of the first row. *)
Theorem detectLgaColumn_header (rows : list Row) (c : jsstring) :
  detectLgaColumn rows = Some c →
  ∃ r0 rest, rows = r0 :: rest ∧ c ∈ Object_keys r0.
Proof.
  unfold detectLgaColumn. destruct rows as [|r0 rest]; [done|].
  intros H. exists r0, rest. split; [done|].
  destruct (List.find _ candidates) as [c'|] eqn:Hc.
  - injection H as ->. apply find_some in Hc as [_ Hc].
    by apply bool_decide_eq_true in Hc.
  - apply find_some in H as [H _]. by apply list_elem_of_In.
Qed.

(** X5: an exact candidate name wins: when some header of the first row is a
    candidate, [detectLgaColumn] returns the earliest candidate of its
    fixed list that is a header, whatever the order of the headers and
    whichever other headers contain "lga". *)
Theorem detectLgaColumn_candidate_first (r0 : Row) (rest : list Row)
    (cand : jsstring) :
  cand ∈ candidates → cand ∈ Object_keys r0 →
  ∃ pre c post,
    candidates = pre ++ c :: post
    ∧ detectLgaColumn (r0 :: rest) = Some c
    ∧ c ∈ Object_keys r0
    ∧ Forall (λ x, x ∉ Object_keys r0) pre.
Proof.
  tidy. intros Hcand Hkey. unfold detectLgaColumn.
  destruct (List.find _ candidates) as [c|] eqn:Hc.
  - destruct (find_first _ _ _ Hc) as (pre & post & Hl & Hx & Hpre).
    exists pre, c, post. split; [done|]. split; [done|].
    split; [by apply bool_decide_eq_true in Hx|].
    eapply Forall_impl; [exact Hpre|]. intros x Hx'.
    by apply bool_decide_eq_false in Hx'.
  - apply find_none_Forall in Hc.
    apply (proj1 (Forall_forall _ _) Hc) in Hcand.
    by apply bool_decide_eq_false in Hcand.
Qed.

(** X6: [detectLgaColumn] gives up exactly when the table is empty or no
    header of the first row is a candidate or contains "lga" once
    lower-cased. *)
Theorem detectLgaColumn_none (rows : list Row) :
  detectLgaColumn rows = None
  ↔ match rows with
    | [] => True
    | r0 :: _ =>
        Forall (λ c, c ∉ Object_keys r0) candidates
        ∧ Forall (λ c, includes (toLowerCase c) (js "lga") = false)
            (Object_keys r0)
    end.
Proof.
  unfold detectLgaColumn. destruct rows as [|r0 rest]; [done|].
  destruct (List.find _ candidates) as [c|] eqn:Hc.
  - split; [done|]. intros [Hno _].
    apply find_some in Hc as [Hin Hc]. apply bool_decide_eq_true in Hc.
    apply list_elem_of_In in Hin.
    by apply (proj1 (Forall_forall _ _) Hno) in Hin.
  - apply find_none_Forall in Hc. rewrite find_none_Forall.
    split; [|by intros [_ ?]]. intros H. split; [|done].
    eapply Forall_impl; [exact Hc|]. intros x Hx.
    by apply bool_decide_eq_false in Hx.
Qed.

Lemma filter_sublist {A} (f : A → bool) (l : list A) :
  List.filter f l `sublist_of` l.
Proof.
  tidy. induction l as [|a l IH]; simpl; [done|].
  destruct (f a); [by apply sublist_skip|by apply sublist_cons].
Qed.

Lemma filter_nil_Forall {A} (f : A → bool) (l : list A) :
  List.filter f l = [] ↔ Forall (λ y, f y = false) l.
Proof.
  tidy. induction l as [|a l IH]; simpl; [by split; [constructor|]|].
  destruct (f a) eqn:Ha.
  - split; [done|]. intros [? _]%Forall_cons. congruence.
  - rewrite IH. split; [by constructor|by intros [_ ?]%Forall_cons].
Qed.

(** X7: what [detectValueColumns] returns is a selection of the headers of the
    first row, in their order, each holding a number in some row; and it
    returns nothing exactly when no header does. *)
Theorem detectValueColumns_selection (r0 : Row) (rest : list Row) :
  let rows := r0 :: rest in
  detectValueColumns rows `sublist_of` Object_keys r0
  ∧ Forall (numeric_column rows) (detectValueColumns rows)
  ∧ (detectValueColumns rows = []
     ↔ Forall (λ c, ¬ numeric_column rows c) (Object_keys r0)).
Proof.
  tidy. intros rows. unfold detectValueColumns, rows. fold rows.
  set (numeric := List.filter (isNumCol rows) (Object_keys r0)).
  assert (Forall (numeric_column rows) numeric) as Hnum.
  { apply Forall_forall. intros c Hc%list_elem_of_In%filter_In.
    apply isNumCol_spec. tauto. }
  assert (numeric = []
          ↔ Forall (λ c, ¬ numeric_column rows c) (Object_keys r0)) as Hnil.
  { unfold numeric. rewrite filter_nil_Forall. apply Forall_iff.
    intros c. rewrite <- isNumCol_spec. by destruct (isNumCol rows c). }
  destruct (List.filter is_priority numeric) as [|p ps] eqn:Hp; simpl.
  - split; [|split].
    + etrans; [apply sublist_take|apply filter_sublist].
    + by apply Forall_take.
    + rewrite <- Hnil. by destruct numeric.
  - split; [|split].
    + rewrite <- Hp. etrans; apply filter_sublist.
    + rewrite <- Hp. apply Forall_forall. intros c Hc.
      apply (proj1 (Forall_forall _ _) Hnum).
      eapply elem_of_sublist; [exact Hc|apply filter_sublist].
    + rewrite <- Hnil. split; [done|]. intros Hn. by rewrite Hn in Hp.
Qed.

(** ** The aggregators and the default mapping *)

Lemma detected_row_mapped (lgaCol : jsstring) (cols : list jsstring)
    (m : JsMap Bucket.t) (r : Row) :
  detected_row lgaCol cols m r = mapped_row lgaCol cols m r.
Proof.
  unfold detected_row, mapped_row, region_name, nullish_or.
  by destruct (is_nullish (row_get r lgaCol)).
Qed.

Lemma fold_left_ext {A B} (f g : A → B → A) (l : list B) (a : A) :
  (∀ a b, f a b = g a b) → fold_left f l a = fold_left g l a.
Proof.
  tidy. intros Hfg. revert a.
  induction l as [|b l IH]; intros a; simpl; [done|]. by rewrite Hfg, IH.
Qed.

Lemma detected_file_mapped (nm : jsstring) (m : JsMap Bucket.t)
    (rows : list Row) :
  detected_file m rows
  = mapped_file m (FileMapping.mk nm rows (detectLgaColumn rows)
                     (detectValueColumns rows)).
Proof.
  unfold detected_file, mapped_file. simpl.
  destruct (detectLgaColumn rows) as [lgaCol|]; [|done].
  destruct (is_empty lgaCol); [done|]. simpl.
  destruct (is_empty (detectValueColumns rows)); [done|].
  apply fold_left_ext, detected_row_mapped.
Qed.

(** X8: [aggregateByLga] is [aggregateByLgaWithMapping] on the mappings the
    two detectors give: mappings whose region column and value columns
    are those detected on their rows aggregate as [aggregateByLga] does
    on the bare tables, whatever the files are called. *)
Theorem aggregateByLga_as_mapping (files : list FileMapping.t) :
  Forall (λ f,
      FileMapping.lgaCol f = detectLgaColumn (FileMapping.rows f)
      ∧ FileMapping.valueCols f = detectValueColumns (FileMapping.rows f))
    files →
  aggregateByLgaWithMapping files
  = aggregateByLga (FileMapping.rows <$> files).
Proof.
  intros Hfiles. unfold aggregateByLga, aggregateByLgaWithMapping. f_equal.
  generalize (@nil (jsstring * Bucket.t)).
  induction Hfiles as [|f files [Hl Hv] _ IH]; intros m; csimpl; [done|].
  rewrite IH. f_equal. destruct f as [nm rows oc cols]. simpl in *.
  subst. by rewrite (detected_file_mapped nm).
Qed.

(** X9: the value columns [onUpload] proposes are those of
    [detectValueColumns], as long as no header of the first row is the
    empty string. *)
Theorem guessMapping_valueCols (name : jsstring) (rows : list Row) :
  Forall (λ c, c ≠ []) (Object_keys (default [] (head rows))) →
  FileMapping.valueCols (guessMapping name rows) = detectValueColumns rows.
Proof.
  tidy. intros Hne. unfold guessMapping, detectValueColumns. simpl.
  destruct rows as [|r0 rest]; simpl in *; [done|].
  set (numeric := List.filter (isNumCol (r0 :: rest)) (Object_keys r0)).
  destruct (List.filter is_priority numeric); simpl; [|done].
  destruct numeric as [|c numeric'] eqn:Hn; [done|].
  assert (c ∈ Object_keys r0) as Hc.
  { eapply elem_of_sublist; [|apply (filter_sublist (isNumCol (r0 :: rest)))].
    fold numeric. rewrite Hn. apply list_elem_of_here. }
  apply (proj1 (Forall_forall _ _) Hne) in Hc. by destruct c.
Qed.

Lemma lower_matches_fold (p ch : N) :
  97 ≤ p ≤ 122 → ch < 128 →
  (p =? ascii_lower ch) = (ascii_upper p =? ascii_upper ch).
Proof.
  tidy. intros Hp Hch. unfold ascii_lower, ascii_upper.
  destruct (N.leb_spec 65 ch), (N.leb_spec ch 90), (N.leb_spec 97 p),
    (N.leb_spec p 122), (N.leb_spec 97 ch), (N.leb_spec ch 122); simpl;
    try lia;
    destruct (N.eqb_spec p (ch + 32)), (N.eqb_spec (p - 32) ch),
      (N.eqb_spec p ch), (N.eqb_spec (p - 32) (ch - 32)); try done; lia.
Qed.

Lemma startsWith_lower (pat s : jsstring) :
  Forall (λ p, 97 ≤ p ≤ 122) pat → Forall (λ c, c < 128) s →
  startsWith (map ascii_lower s) pat = ci_startsWith s pat.
Proof.
  tidy. intros Hpat. revert s.
  induction Hpat as [|p pat Hp _ IH]; intros s Hs; [done|].
  destruct Hs as [|c s Hc Hs]; simpl; [done|].
  by rewrite IH, lower_matches_fold.
Qed.

Lemma includes_lower (pat s : jsstring) :
  Forall (λ p, 97 ≤ p ≤ 122) pat → Forall (λ c, c < 128) s →
  includes (map ascii_lower s) pat = ci_includes s pat.
Proof.
  tidy. intros Hpat Hs.
  induction Hs as [|c s Hc Hs IH].
  - cbn [includes ci_includes map].
    f_equal. by apply (startsWith_lower pat []); [|constructor].
  - cbn [includes ci_includes map].
    rewrite <- IH. f_equal.
    by apply (startsWith_lower pat (c :: s)); [|constructor].
Qed.

Lemma toLowerCase_ascii (s : jsstring) :
  Forall (λ c, c < 128) s → toLowerCase s = map ascii_lower s.
Proof.
  intros Hs. unfold toLowerCase.
  assert (forallb (λ c, c <? 128) s = true) as ->; [|done].
  apply forallb_forall. intros c Hc%list_elem_of_In.
  apply N.ltb_lt. by apply (proj1 (Forall_forall _ _) Hs).
Qed.

Lemma lga_lower_case : Forall (λ p, 97 ≤ p ≤ 122) (js "lga").
Proof. tidy. repeat constructor; vm_compute; congruence. Qed.

(** X10: the region column [onUpload] proposes is the one [detectLgaColumn]
    finds, for a table whose headers are ASCII and none of them one of
    the exact candidate names. *)
Theorem guessMapping_lgaCol (name : jsstring) (rows : list Row) :
  Forall (λ c, (c ∉ candidates) ∧ Forall (λ x, x < 128) c)
    (Object_keys (default [] (head rows))) →
  FileMapping.lgaCol (guessMapping name rows) = detectLgaColumn rows.
Proof.
  tidy.
  intros Hcols. destruct rows as [|r0 rest]; [done|].
  unfold guessMapping, detectLgaColumn.
  change (default [] (head (r0 :: rest))) with r0 in *.
  cbn [FileMapping.lgaCol].
  assert (List.find (λ c, bool_decide (c ∈ Object_keys r0)) candidates
          = None) as ->.
  { apply find_none_Forall, Forall_forall. intros c Hc.
    apply bool_decide_eq_false. intros Hin.
    apply (proj1 (Forall_forall _ _) Hcols) in Hin. tauto. }
  assert (List.find (λ c, includes (toLowerCase c) (js "lga"))
            (Object_keys r0)
          = List.find (λ c, ci_includes c (js "lga")) (Object_keys r0))
    as ->.
  { induction Hcols as [|c cols [_ Hc] _ IH]; simpl; [done|].
    rewrite toLowerCase_ascii, includes_lower by
      (done || apply lga_lower_case).
    by rewrite IH. }
  destruct (List.find _ (Object_keys r0)) as [c|] eqn:Hfind; [|done].
  apply find_some in Hfind as [_ Hc]. by destruct c.
Qed.

(** ** Further properties of aggregation *)

Lemma contributing_rows_of_split (n n1 n2 : jsstring) (rs1 rs2 : list Row)
    (oc : option jsstring) (cols : list jsstring) :
  contributing_rows_of (FileMapping.mk n (rs1 ++ rs2) oc cols)
  = contributing_rows_of (FileMapping.mk n1 rs1 oc cols)
    ++ contributing_rows_of (FileMapping.mk n2 rs2 oc cols).
Proof.
  unfold contributing_rows_of. simpl.
  destruct oc as [lgaCol|]; [|done].
  destruct (is_empty lgaCol || is_empty cols); [done|].
  apply omap_app.
Qed.

(** X11: only the rows count, not how they are spread over files: a table cut
    in two, under any file names and with the same column mapping,
    aggregates as the whole table does. *)
Theorem aggregate_split_file (pre post : list FileMapping.t)
    (n n1 n2 : jsstring) (rs1 rs2 : list Row) (oc : option jsstring)
    (cols : list jsstring) :
  aggregateByLgaWithMapping
    (pre ++ FileMapping.mk n1 rs1 oc cols
         :: FileMapping.mk n2 rs2 oc cols :: post)
  = aggregateByLgaWithMapping
      (pre ++ FileMapping.mk n (rs1 ++ rs2) oc cols :: post).
Proof.
  rewrite !aggregate_run, !contributing_rows_app, !contributing_rows_cons.
  by rewrite (contributing_rows_of_split n n1 n2), <- app_assoc.
Qed.

Lemma region_name_trimmed (lgaCol : jsstring) (r : Row) :
  trim (region_name lgaCol r) = region_name lgaCol r.
Proof.
  unfold region_name. destruct (is_nullish _); [done|]. apply trim_idemp.
Qed.

Lemma contributing_name (files : list FileMapping.t) (ev : contributing) :
  ev ∈ contributing_rows files →
  the_name ev ≠ [] ∧ trim (the_name ev) = the_name ev
  ∧ ∃ f, f ∈ files ∧ the_cols ev = FileMapping.valueCols f.
Proof.
  unfold contributing_rows. intros (f & Hev & Hf)%list_elem_of_bind.
  unfold contributing_rows_of in Hev.
  destruct (FileMapping.lgaCol f) as [lgaCol|];
    [|by apply elem_of_nil in Hev].
  destruct (is_empty lgaCol || is_empty (FileMapping.valueCols f));
    [by apply elem_of_nil in Hev|].
  apply list_elem_of_omap in Hev as (r & _ & Hr). simpl in Hr.
  destruct (region_name lgaCol r) as [|c n] eqn:Hn; [done|].
  injection Hr as <-. simpl. split; [done|].
  split; [rewrite <- Hn; apply region_name_trimmed|by exists f].
Qed.

Lemma first_name_elem_of (k n : jsstring) (evs : list contributing) :
  first_name k evs = Some n → ∃ ev, ev ∈ evs ∧ the_name ev = n.
Proof.
  tidy.
  unfold first_name, rows_of_key.
  destruct (head _) as [ev|] eqn:Hh; [|done]. intros [= <-].
  apply head_Some_elem_of, list_elem_of_filter in Hh. exists ev. tauto.
Qed.

(** X12: every region [aggregateByLgaWithMapping] returns bears a display name
    that is not empty and has no white space at either end. *)
Theorem aggregate_names_trimmed (files : list FileMapping.t) :
  Forall (λ e, Region.name e ≠ [] ∧ trim (Region.name e) = Region.name e)
    (aggregateByLgaWithMapping files).
Proof.
  rewrite aggregate_run.
  destruct (run_spec (contributing_rows files)) as [Hk Hb].
  apply Forall_forall. intros e He%elem_of_entries.
  apply elem_of_map_get in He; [|rewrite Hk; apply NoDup_first_seen].
  destruct (Hb _ _ He) as (Hn & _). simpl in Hn.
  apply first_name_elem_of in Hn as (ev & Hev & <-).
  apply contributing_name in Hev. tauto.
Qed.

Lemma upsert_key_names (m : JsMap Bucket.t) (name : jsstring) (r : Row)
    (cols : list jsstring) :
  key_names (upsert m name r cols)
  = key_names m
    ++ (if decide (normalizeName (JStr name) ∈ m.*1) then []
        else [(normalizeName (JStr name), name)]).
Proof.
  unfold upsert, key_names. set (key := normalizeName (JStr name)).
  induction m as [|[k0 b0] m IH]; csimpl; [done|].
  destruct (decide (k0 = key)) as [->|Hne]; csimpl.
  - rewrite decide_True by apply list_elem_of_here. by rewrite app_nil_r.
  - rewrite IH. f_equal.
    destruct (decide (key ∈ m.*1)) as [Hin|Hnin].
    + by rewrite decide_True by by apply list_elem_of_further.
    + rewrite decide_False; [done|]. rewrite elem_of_cons.
      intros [->|?]; done.
Qed.

Lemma run_key_names (evs : list contributing) (m : JsMap Bucket.t) :
  key_names m `prefix_of` key_names (run evs m).
Proof.
  revert m. induction evs as [|ev evs IH]; intros m; simpl; [done|].
  etrans; [|apply IH]. rewrite upsert_key_names. by apply prefix_app_r.
Qed.

Lemma entries_key_names (m : JsMap Bucket.t) :
  (λ e, (Region.key e, Region.name e)) <$> entries m = key_names m.
Proof.
  unfold entries, key_names. rewrite <- list_fmap_compose.
  apply list_fmap_ext. by intros _ [k b] _.
Qed.

(** X13: adding files never disturbs what is there: the regions of the files
    so far keep their place, their key and their display name, and new
    regions come after them. *)
Theorem aggregate_append_stable (files more : list FileMapping.t) :
  (λ e, (Region.key e, Region.name e)) <$> aggregateByLgaWithMapping files
  `prefix_of`
  (λ e, (Region.key e, Region.name e))
    <$> aggregateByLgaWithMapping (files ++ more).
Proof.
  rewrite !aggregate_run, !entries_key_names, contributing_rows_app.
  rewrite run_app. apply run_key_names.
Qed.

Lemma elem_of_metric_slots (n j : nat) :
  (j < n)%nat → metric_key j ∈ metric_slots n.
Proof.
  tidy. intros Hj. unfold metric_slots.
  apply elem_of_list_to_set, list_elem_of_fmap. exists j.
  split; [done|]. apply elem_of_seq. lia.
Qed.

Lemma add_metrics_dom (r : Row) (cols : list jsstring) (idx n : nat)
    (ms : gmap jsstring float) :
  (idx + length cols ≤ n)%nat →
  dom ms ⊆ metric_slots n →
  dom (add_metrics r cols idx ms) ⊆ metric_slots n.
Proof.
  revert idx ms. induction cols as [|c cols IH]; intros idx ms Hn Hms;
    simpl in *; [done|].
  apply IH; [lia|].
  destruct (PrimFloat.is_finite _); [|done].
  rewrite dom_insert_L. apply union_least; [|done].
  apply singleton_subseteq_l, elem_of_metric_slots. lia.
Qed.

Lemma max_cols_bound (files : list FileMapping.t) (f : FileMapping.t) :
  f ∈ files → (length (FileMapping.valueCols f) ≤ max_cols files)%nat.
Proof.
  tidy. induction 1 as [f files|f g files _ IH]; simpl; lia.
Qed.

Lemma run_metric_slots (n : nat) (evs : list contributing)
    (m : JsMap Bucket.t) :
  Forall (λ ev, (length (the_cols ev) ≤ n)%nat) evs →
  Forall (λ kb, dom (Bucket.metrics kb.2) ⊆ metric_slots n) m →
  Forall (λ kb, dom (Bucket.metrics kb.2) ⊆ metric_slots n) (run evs m).
Proof.
  intros Hevs. revert m.
  induction Hevs as [|ev evs Hev _ IH]; intros m Hm; simpl; [done|].
  apply IH. unfold upsert. apply Forall_map_set; [done|]. simpl.
  apply add_metrics_dom; [lia|].
  destruct (map_get m _) as [b|] eqn:Hget; simpl; [|set_solver].
  apply map_get_elem_of in Hget.
  by apply (proj1 (Forall_forall _ _) Hm) in Hget.
Qed.

(** X14: the metrics of a region are named [metric_1] to [metric_n] and
    nothing else, where [n] is the largest number of value columns of a
    mapping. *)
Theorem aggregate_metric_names (files : list FileMapping.t) :
  Forall (λ e, dom (Region.metrics e) ⊆ metric_slots (max_cols files))
    (aggregateByLgaWithMapping files).
Proof.
  rewrite aggregate_run. unfold entries. apply Forall_fmap.
  eapply Forall_impl.
  - apply (run_metric_slots (max_cols files)); [|constructor].
    apply Forall_forall. intros ev (_ & _ & f & Hf & ->)%contributing_name.
    by apply max_cols_bound.
  - by intros [k b].
Qed.

(** ** Further properties of the geo merge *)

Lemma lookup_bucket_None (agg : list Region.t) (k : jsstring) :
  k ∉ Region.key <$> agg → lookup_bucket agg k = None.
Proof.
  tidy. intros Hk. unfold lookup_bucket.
  assert (filter (λ a, Region.key a = k) agg = []) as ->; [|done].
  induction agg as [|a agg IH]; [done|].
  rewrite fmap_cons, not_elem_of_cons in Hk. destruct Hk as [Hne Hk].
  rewrite filter_cons, decide_False by done. by apply IH.
Qed.

Lemma lookup_bucket_NoDup (agg : list Region.t) (a : Region.t) :
  NoDup (Region.key <$> agg) → a ∈ agg →
  lookup_bucket agg (Region.key a) = Some a.
Proof.
  tidy. unfold lookup_bucket. intros Hnd Ha.
  assert (filter (λ b, Region.key b = Region.key a) agg = [a]) as ->;
    [|done].
  induction agg as [|b agg IH]; [by apply elem_of_nil in Ha|].
  rewrite fmap_cons in Hnd. apply NoDup_cons in Hnd as [Hb Hnd].
  rewrite filter_cons. apply elem_of_cons in Ha as [->|Ha].
  - rewrite decide_True by done. f_equal.
    pose proof (lookup_bucket_None agg (Region.key b) Hb) as Hnone.
    unfold lookup_bucket in Hnone.
    destruct (filter _ agg) as [|x l] eqn:Hf using rev_ind; [done|].
    by rewrite last_snoc in Hnone.
  - rewrite decide_False; [by apply IH|].
    intros Heq. apply Hb. rewrite Heq. by apply list_elem_of_fmap_2.
Qed.

Lemma merge_lookup_ext (geo : FeatureCollection.t)
    (agg agg' : list Region.t) :
  (∀ k, lookup_bucket agg k = lookup_bucket agg' k) →
  mergeMetricsIntoGeoJSON geo agg = mergeMetricsIntoGeoJSON geo agg'.
Proof.
  intros Hl.
  assert (∀ f, matched agg f = matched agg' f) as Hm.
  { intros f. unfold matched.
    by destruct (normalizeName <$> resolved_name (props_of f)) as [[|]|]. }
  unfold mergeMetricsIntoGeoJSON. rewrite !merge_features_spec.
  assert (filter (λ f, is_Some (matched agg f))
            (FeatureCollection.features geo)
          = filter (λ f, is_Some (matched agg' f))
              (FeatureCollection.features geo)) as ->.
  { apply list_filter_iff. intros f. by rewrite Hm. }
  f_equal. apply list_fmap_ext. intros _ f _.
  by rewrite !merge_feature_matched, Hm.
Qed.

(** X15: the order of the aggregated list is of no account to the merge, as
    long as no key occurs twice in it. *)
Theorem merge_order_irrelevant (geo : FeatureCollection.t)
    (agg agg' : list Region.t) :
  NoDup (Region.key <$> agg) → agg ≡ₚ agg' →
  mergeMetricsIntoGeoJSON geo agg = mergeMetricsIntoGeoJSON geo agg'.
Proof.
  intros Hnd Hp. apply merge_lookup_ext. intros k.
  assert (NoDup (Region.key <$> agg')) as Hnd' by by rewrite <- Hp.
  destruct (decide (k ∈ Region.key <$> agg)) as [Hin|Hnin].
  - apply list_elem_of_fmap in Hin as (a & -> & Ha).
    rewrite (lookup_bucket_NoDup agg a Hnd Ha).
    symmetry. apply lookup_bucket_NoDup; [done|]. by rewrite <- Hp.
  - rewrite (lookup_bucket_None agg k Hnin).
    symmetry. apply lookup_bucket_None. by rewrite <- Hp.
Qed.

Lemma find_ext_in {A} (f g : A → bool) (l : list A) :
  Forall (λ x, f x = g x) l → List.find f l = List.find g l.
Proof.
  tidy. induction 1 as [|x l Hx _ IH]; simpl; [done|]. by rewrite Hx, IH.
Qed.

Lemma feature_key_ext (p p' : gmap jsstring value) :
  Forall (λ nf, p' !! nf = p !! nf) nameFields →
  feature_key p' = feature_key p.
Proof.
  intros Hp.
  assert (Forall (λ nf, prop_get p' nf = prop_get p nf) nameFields) as Hg.
  { eapply Forall_impl; [exact Hp|]. intros nf Hnf. unfold prop_get.
    by rewrite Hnf. }
  unfold feature_key, field_key.
  rewrite (proj1 (Forall_forall _ _) Hg (js "name") name_in_nameFields).
  rewrite (find_ext_in (λ nf, truthy (prop_get p' nf))
             (λ nf, truthy (prop_get p nf))).
  - destruct (List.find _ nameFields) as [nf|] eqn:Hf; [|done].
    apply find_some in Hf as [Hin _]. apply list_elem_of_In in Hin.
    by rewrite (proj1 (Forall_forall _ _) Hg nf Hin).
  - eapply Forall_impl; [exact Hg|]. intros nf Hnf. simpl. by rewrite Hnf.
Qed.

Lemma matched_feature_key (agg : list Region.t) (f f' : Feature.t) :
  feature_key (props_of f') = feature_key (props_of f) →
  matched agg f' = matched agg f.
Proof. unfold matched. rewrite <- !feature_key_resolved. by intros ->. Qed.

Lemma Object_assign_idemp (props : gmap jsstring value)
    (metrics : gmap jsstring float) :
  Object_assign (Object_assign props metrics) metrics
  = Object_assign props metrics.
Proof.
  tidy. apply map_eq. intros s. rewrite !Object_assign_lookup.
  by destruct (metrics !! s).
Qed.

Lemma length_filter_fmap {A B} (P : B → Prop) `{∀ x, Decision (P x)}
    (g : A → B) (l : list A) :
  length (filter P (g <$> l)) = length (filter (λ a, P (g a)) l).
Proof.
  tidy. induction l as [|a l IH]; [done|].
  rewrite fmap_cons, !filter_cons. destruct (decide (P (g a))); simpl;
    by rewrite IH.
Qed.

Lemma merge_feature_again (agg : list Region.t) (f : Feature.t) :
  Forall (λ a, Forall (λ nf, Region.metrics a !! nf = None) nameFields)
    agg →
  let f' := (merge_feature (build_lookup agg) f 0).1 in
  matched agg f' = matched agg f
  ∧ (merge_feature (build_lookup agg) f' 0).1 = f'.
Proof.
  intros Hagg f'.
  assert (matched agg f' = matched agg f) as Hm.
  { apply matched_feature_key. unfold f'. rewrite merge_feature_matched.
    destruct (matched agg f) as [hit|] eqn:Hhit; simpl; [|done].
    apply feature_key_ext. apply matched_elem_of in Hhit.
    apply (proj1 (Forall_forall _ _) Hagg) in Hhit.
    eapply Forall_impl; [exact Hhit|]. intros nf Hnf. simpl in Hnf.
    unfold props_of. simpl. by rewrite Object_assign_lookup, Hnf. }
  split; [done|].
  rewrite merge_feature_matched, Hm. unfold f'.
  rewrite merge_feature_matched.
  destruct (matched agg f) as [hit|]; simpl; [|done].
  unfold props_of at 1. simpl. by rewrite Object_assign_idemp.
Qed.

(** X16: merging is idempotent: merging the same aggregated list a second time
    into the merged collection changes nothing, as long as no metric
    bears the name of one of the name properties (the [metric_N] of the
    aggregators never do). *)
Theorem merge_idempotent (geo : FeatureCollection.t)
    (agg : list Region.t) :
  Forall (λ a, Forall (λ nf, Region.metrics a !! nf = None) nameFields)
    agg →
  mergeMetricsIntoGeoJSON (mergeMetricsIntoGeoJSON geo agg) agg
  = mergeMetricsIntoGeoJSON geo agg.
Proof.
  intros Hagg.
  unfold mergeMetricsIntoGeoJSON at 1. rewrite merge_features_spec.
  rewrite merged_features.
  set (fs := FeatureCollection.features geo).
  set (again := λ f, (merge_feature (build_lookup agg) f 0).1).
  unfold mergeMetricsIntoGeoJSON. rewrite merge_features_spec.
  fold fs again. f_equal.
  - rewrite <- list_fmap_compose. apply list_fmap_ext. intros _ f _.
    apply (merge_feature_again agg f Hagg).
  - rewrite length_filter_fmap, length_fmap. do 2 f_equal.
    f_equal. f_equal. apply list_filter_iff. intros f. unfold again.
    by rewrite (proj1 (merge_feature_again agg f Hagg)).
Qed.

Lemma matched_aggregate (files : list FileMapping.t) (f : Feature.t)
    (c : N) (k : jsstring) :
  feature_key (props_of f) = Some (c :: k) →
  let evs := contributing_rows files in
  if decide (c :: k ∈ row_key <$> evs)
  then ∃ hit, matched (aggregateByLgaWithMapping files) f = Some hit
              ∧ ∀ i, Region.metrics hit !! metric_key i
                     = float_sum (contributions (c :: k) i evs)
  else matched (aggregateByLgaWithMapping files) f = None.
Proof.
  intros Hkey evs. unfold matched.
  rewrite <- feature_key_resolved, Hkey, aggregate_run. fold evs.
  destruct (run_spec evs) as [Hk Hb].
  destruct (decide (c :: k ∈ row_key <$> evs)) as [Hin|Hnin].
  - destruct (map_get (run evs []) (c :: k)) as [b|] eqn:Hget.
    + exists (Region.mk (c :: k) (Bucket.name b) (Bucket.metrics b)).
      split; [|by apply Hb].
      apply (lookup_bucket_NoDup (entries (run evs []))
               (Region.mk (c :: k) (Bucket.name b) (Bucket.metrics b))).
      * rewrite entries_keys, Hk. apply NoDup_first_seen.
      * apply map_get_elem_of in Hget. unfold entries.
        apply list_elem_of_fmap. by exists (c :: k, b).
    + apply map_get_None in Hget.
      rewrite Hk, elem_of_first_seen in Hget. done.
  - apply lookup_bucket_None.
    by rewrite entries_keys, Hk, elem_of_first_seen.
Qed.

(** X17: aggregation followed by the merge, as [process] runs them: a feature
    whose key is that of some contributing row comes out with, in each
    [metric_{i+1}], the sum of the finite [i]-th value cells of the rows
    of its key (its own earlier property where there is no such cell);
    every other feature comes out with its properties as they were. *)
Theorem process_feature_metrics (geo : FeatureCollection.t)
    (files : list FileMapping.t) :
  let evs := contributing_rows files in
  Forall2 (λ f f',
      ∃ props', f' = Feature.mk (Some props')
        ∧ match feature_key (props_of f) with
          | Some (c :: k) =>
              if decide (c :: k ∈ row_key <$> evs)
              then ∀ i, props' !! metric_key i
                        = match float_sum (contributions (c :: k) i evs)
                          with
                          | Some x => Some (JNum x)
                          | None => props_of f !! metric_key i
                          end
              else props' = props_of f
          | _ => props' = props_of f
          end)
    (FeatureCollection.features geo)
    (FeatureCollection.features
       (mergeMetricsIntoGeoJSON geo (aggregateByLgaWithMapping files))).
Proof.
  intros evs. rewrite merged_features.
  apply Forall2_fmap_r, Forall_Forall2_diag, Forall_forall. intros f _.
  unfold compose. cbv beta. rewrite merge_feature_matched.
  destruct (feature_key (props_of f)) as [[|c k]|] eqn:Hkey.
  - unfold matched. rewrite <- feature_key_resolved, Hkey. by eexists.
  - pose proof (matched_aggregate files f c k Hkey) as Hm. simpl in Hm.
    fold evs in Hm.
    destruct (decide (c :: k ∈ row_key <$> evs)).
    + destruct Hm as (hit & -> & Hhit). simpl. eexists. split; [done|].
      intros i. by rewrite Object_assign_lookup, Hhit.
    + rewrite Hm. by eexists.
  - unfold matched. rewrite <- feature_key_resolved, Hkey. by eexists.
Qed.

(** ** File names and map addresses *)

Lemma split_no_sep (sep : N) (s : jsstring) :
  sep ∉ s → split sep s = [s].
Proof.
  tidy. induction s as [|c s IH]; simpl; [done|].
  rewrite not_elem_of_cons. intros [Hne Hs].
  destruct (N.eqb_spec c sep) as [->|_]; [done|]. by rewrite IH.
Qed.

Lemma split_at_sep (sep : N) (a b : jsstring) :
  ∃ seg segs, split sep (a ++ sep :: b) = seg :: segs ++ split sep b
              ∧ (sep ∉ a → seg = a ∧ segs = []).
Proof.
  tidy. induction a as [|c a (seg & segs & Hs & Ha)]; simpl.
  - rewrite N.eqb_refl. by exists [], [].
  - destruct (N.eqb_spec c sep) as [->|Hne].
    + exists [], (seg :: segs). rewrite Hs. split; [done|].
      intros []. apply list_elem_of_here.
    + rewrite Hs. exists (c :: seg), segs. split; [done|].
      rewrite not_elem_of_cons. intros [_ Hsep].
      destruct (Ha Hsep) as [-> ->]. done.
Qed.

Lemma split_head (sep : N) (s : jsstring) :
  ∃ seg segs, split sep s = seg :: segs ∧ (sep ∉ seg).
Proof.
  tidy. induction s as [|c s (seg & segs & Hs & Hseg)]; simpl.
  - exists [], []. split; [done|apply not_elem_of_nil].
  - destruct (N.eqb_spec c sep) as [->|Hne].
    + exists [], (split sep s). split; [done|apply not_elem_of_nil].
    + rewrite Hs. exists (c :: seg), segs. split; [done|].
      rewrite not_elem_of_cons. split; [congruence|done].
Qed.

Lemma ascii_lower_dot (c : N) : ascii_lower c = 46 → c = 46.
Proof.
  tidy. unfold ascii_lower.
  destruct (N.leb_spec 65 c), (N.leb_spec c 90); simpl; lia.
Qed.

Lemma file_ext_suffix (file : UploadedFile.t) (base e : jsstring) :
  UploadedFile.name file = base ++ 46 :: e → 46 ∉ e →
  Forall (λ c, c < 128) (UploadedFile.name file) →
  file_ext file = Some (map ascii_lower e).
Proof.
  intros Hname He Hascii. unfold file_ext.
  rewrite toLowerCase_ascii by done. rewrite Hname, map_app. simpl.
  change (ascii_lower 46) with 46.
  destruct (split_at_sep 46 (map ascii_lower base) (map ascii_lower e))
    as (seg & segs & -> & _).
  rewrite split_no_sep.
  - by rewrite app_comm_cons, last_snoc.
  - intros (c & Hc & Hin)%list_elem_of_In%in_map_iff.
    apply ascii_lower_dot in Hc as ->. by apply list_elem_of_In in Hin.
Qed.

(** X18: [parseFile] goes by what follows the last dot of the file name, letter
    case set aside: for an ASCII name [base.e], however many dots [base]
    holds, the CSV parser is called when [e] is [csv], the spreadsheet
    parser when it is [xls] or [xlsx], and otherwise the promise is
    rejected with a message that names the lower-cased [e]. *)
Theorem parseFile_by_extension
    (Papa_parse XLSX_parse : UploadedFile.t → settled)
    (file : UploadedFile.t) (base e : jsstring) :
  UploadedFile.name file = base ++ 46 :: e → 46 ∉ e →
  Forall (λ c, c < 128) (UploadedFile.name file) →
  parseFile Papa_parse XLSX_parse file
  = let ext := map ascii_lower e in
    if decide (ext = js "csv") then Papa_parse file
    else if decide (ext = js "xls" ∨ ext = js "xlsx") then XLSX_parse file
    else Rejected (ErrorMessage (js "Unsupported file type: " ++ ext)).
Proof.
  tidy.
  intros Hname He Hascii. unfold parseFile.
  rewrite (file_ext_suffix file base e Hname He Hascii). simpl.
  set (ext := map ascii_lower e).
  destruct (decide (ext = js "csv")) as [Hcsv|Hcsv].
  - by rewrite decide_True by by rewrite Hcsv.
  - rewrite decide_False by by intros [= ?].
    destruct (decide (ext = js "xls" ∨ ext = js "xlsx")) as [Hx|Hx].
    + rewrite decide_True; [done|]. destruct Hx as [->| ->]; auto.
    + rewrite decide_False; [done|]. intros [[= ?]|[= ?]]; tauto.
Qed.

(** X19: the address of the map keeps its base however often it is refreshed:
    the base of an address carries no query, and the base of a refreshed
    base is that base again. *)
Theorem baseSrc_refresh_stable (src : jsstring) (now : float) :
  (63 ∉ baseSrc src)
  ∧ baseSrc (baseSrc src) = baseSrc src
  ∧ baseSrc (cache_busted (baseSrc src) now) = baseSrc src.
Proof.
  assert (63 ∉ baseSrc src) as Hseg.
  { unfold baseSrc. by destruct (split_head 63 src) as (? & ? & -> & ?). }
  split; [done|]. generalize dependent (baseSrc src). intros seg Hseg.
  unfold baseSrc. split.
  - by rewrite split_no_sep.
  - unfold cache_busted.
    change (seg ++ js "?ts=" ++ number_to_string now)
      with (seg ++ 63 :: (js "ts=" ++ number_to_string now)).
    destruct (split_at_sep 63 seg (js "ts=" ++ number_to_string now))
      as (seg' & segs' & -> & Hfst).
    by destruct (Hfst Hseg) as [-> _].
Qed.

End Runtime.

(** ** Worked examples, on the sample runtime *)

Local Abbreviation normalize :=
  (normalizeName Sample.unicode_upper Sample.number_to_string).
Local Abbreviation aggregate :=
  (aggregateByLgaWithMapping Sample.unicode_upper Sample.number_to_string
     Sample.string_to_number).
Local Abbreviation merge :=
  (mergeMetricsIntoGeoJSON Sample.unicode_upper Sample.number_to_string).

(** The two sample tables together: three regions in first-seen order,
    the first slot shared by the columns [Exp] and [Loss]. *)
Example aggregate_two_files :
  (λ e, (Region.key e, Region.name e,
         Region.metrics e !! js "metric_1",
         Region.metrics e !! js "metric_2"))
    <$> aggregate [Sample.fileA; Sample.fileB]
  = [ (js "MELBOURNE", js "Melbourne", Some 22%float, Some 7%float);
      (js "YARRA", js "Yarra!", None, Some 0%float);
      (js "BALLARAT", js "Ballarat", Some 2%float, None) ].
Proof. vm_compute. reflexivity. Qed.

(** A number is normalised through its decimal form; Latin-1 letters
    fold to ASCII only where their upper-case form is ASCII. *)
Example normalize_values :
  normalize (JNum 3000) = js "3000"
  ∧ normalize JNull = []
  ∧ normalize (JStr [223; 116; 114; 97; 223; 101; 33]) = js "SSTRASSE"
  ∧ normalize (JStr (js "  Mt. Alexander (S) ")) = js "MT ALEXANDER S".
Proof. vm_compute. repeat split; reflexivity. Qed.

(** The merge of the sample collection: the first feature is matched and
    its old [metric_1] overwritten, the second finds no bucket, the third
    has no name. *)
Example merge_sample :
  let out := merge Sample.geo (aggregate [Sample.fileA; Sample.fileB]) in
  FeatureCollection.properties out = Some (mkSummary 1 3)
  ∧ ((λ f, (props_of f !! js "LGA_NAME", props_of f !! js "metric_1",
            props_of f !! js "metric_2"))
       <$> FeatureCollection.features out)
    = [ (Some (JStr (js "Melbourne")), Some (JNum 22), Some (JNum 7));
        (Some (JStr (js "Geelong")), None, None);
        (None, None, None) ].
Proof. vm_compute. split; reflexivity. Qed.

(** Column detection on the first sample table, and on a table whose
    only numeric column is outside the vocabulary. *)
Example detect_sample_columns :
  detectValueColumns (FileMapping.rows Sample.fileA) = [js "Exp"; js "Net"]
  ∧ detectValueColumns
      [ [(js "LGA", JStr (js "Yarra")); (js "Venues", JNum 4);
         (js "Machines", JNum 90)] ]
    = [js "Venues"]
  ∧ detectValueColumns [ [(js "LGA", JStr (js "Yarra"))] ] = [].
Proof. vm_compute. repeat split; reflexivity. Qed.

(** Objects handed to [normalizeName]: a plain object has the string
    [[object Object]], the array [[1, 2]] the string [1,2]. *)
Example normalize_objects :
  normalizeName_any Sample.unicode_upper Sample.number_to_string
    (Object (Some (JStr (js "[object Object]"))))
  = Returns (js "OBJECT OBJECT")
  ∧ normalizeName_any Sample.unicode_upper Sample.number_to_string
      (Object (Some (JStr (js "1,2"))))
    = Returns (js "12").
Proof. vm_compute. split; reflexivity. Qed.

(** The same rows the other way round: with [Exp] in the first row the
    column is found. *)
Example detect_ragged_reversed :
  detectValueColumns (rev Sample.ragged_rows) = [js "Exp"].
Proof. vm_compute. reflexivity. Qed.

(** C6 fails as stated: the key of ["GREATER   GEELONG!!"] keeps the
    three inner spaces, so it is neither equal to the key of
    ["Greater Geelong"] nor to ["GREATER GEELONG"]. *)
Lemma normalizeName_keeps_inner_spaces :
  ¬ (normalize (JStr (js "Greater Geelong"))
     = normalize (JStr (js "GREATER   GEELONG!!"))
     ∧ normalize (JStr (js "Greater Geelong")) = js "GREATER GEELONG"
     ∧ normalize (JStr (js "GREATER   GEELONG!!")) = js "GREATER GEELONG").
Proof. vm_compute. intros [H _]. discriminate H. Qed.


(** A blank row, a cell that is not a number, a mapping without region
    column and a mapping without rows, on the sample tables. *)
Lemma aggregation_absorbs_bad_input_witness :
  aggregate
    [FileMapping.mk (js "a.csv") (Sample.blank_row :: [Sample.yarra_row])
       (Some (js "LGA")) [js "Exp"; js "Net"]; Sample.fileB]
  = aggregate
      [FileMapping.mk (js "a.csv") [Sample.yarra_row]
         (Some (js "LGA")) [js "Exp"; js "Net"]; Sample.fileB]
  ∧ (∃ b,
       map_get
         (mapped_row Sample.unicode_upper Sample.number_to_string
            Sample.string_to_number (js "LGA") [js "Exp"; js "Net"] []
            Sample.yarra_row) (js "YARRA") = Some b
       ∧ Bucket.metrics b !! js "metric_1" = None)
  ∧ (∃ b,
       map_get
         (mapped_row Sample.unicode_upper Sample.number_to_string
            Sample.string_to_number (js "LGA") [js "Exp"; js "Net"] []
            Sample.yarra_row) (js "YARRA") = Some b
       ∧ Bucket.metrics b !! js "metric_2" = Some 3%float)
  ∧ aggregate [Sample.fileA; Sample.unmapped; Sample.fileB]
    = aggregate [Sample.fileA; Sample.fileB]
  ∧ aggregate [Sample.no_rows] = [].
Proof.
  destruct (aggregation_absorbs_bad_input Sample.unicode_upper
              Sample.number_to_string Sample.string_to_number)
    as (Hrow & Hcell & Hfile & Hempty).
  split; [|split; [|split; [|split]]].
  - apply (Hrow [] [Sample.fileB] (js "a.csv") [] Sample.blank_row
             [Sample.yarra_row] (js "LGA") [js "Exp"; js "Net"]).
    right. reflexivity.
  - apply (Hcell [] (js "LGA") [js "Exp"; js "Net"] Sample.yarra_row
             0%nat (js "Exp")); [vm_compute; discriminate|reflexivity].
  - apply (Hcell [] (js "LGA") [js "Exp"; js "Net"] Sample.yarra_row
             1%nat (js "Net")); [vm_compute; discriminate|reflexivity].
  - apply (Hfile [Sample.fileA] Sample.unmapped [Sample.fileB]).
    left. reflexivity.
  - apply (Hempty Sample.no_rows). reflexivity.
Defined.


(** C3 fails as stated: a feature matched with a bucket that holds no
    metric is counted in [_attached_count] though it received none. *)
Lemma attached_count_counterexample :
  let agg := aggregate [Sample.fileNA] in
  let geo :=
    FeatureCollection.mk
      [Sample.feature [(js "LGA_NAME", JStr (js "Yarra"))]] None in
  agg = [Region.mk (js "YARRA") (js "Yarra") ∅]
  ∧ FeatureCollection.properties (merge geo agg) = Some (mkSummary 1 1)
  ∧ length (filter (received_metric Sample.unicode_upper
                      Sample.number_to_string agg)
              (FeatureCollection.features geo)) = 0%nat
  ∧ FeatureCollection.features (merge geo agg)
    = FeatureCollection.features geo.
Proof. vm_compute. repeat split; reflexivity. Qed.

(** Every bucket of the second sample table holds a metric: the count
    of attached features is the count of those that received one. *)
Lemma mergeMetricsIntoGeoJSON_summary_witness :
  FeatureCollection.properties
    (merge Sample.geo (aggregate [Sample.fileB]))
  = Some (mkSummary
            (length (filter (received_metric Sample.unicode_upper
                               Sample.number_to_string
                               (aggregate [Sample.fileB]))
                       (FeatureCollection.features Sample.geo)))
            (length (FeatureCollection.features Sample.geo))).
Proof.
  apply (mergeMetricsIntoGeoJSON_summary Sample.unicode_upper
           Sample.number_to_string Sample.geo (aggregate [Sample.fileB])).
  vm_compute. repeat constructor; discriminate.
Defined.

(** C9 fails as stated: in the table [{LGA: 'a'}, {LGA: 'b', Exp: 5}] a
    row holds a number in the column [Exp], whose header matches the
    vocabulary, and yet no column is returned: the first row has no
    [Exp]. *)
Lemma detectValueColumns_misses_later_column :
  numeric_column Sample.ragged_rows (js "Exp")
  ∧ matches_vocabulary (js "Exp")
  ∧ detectValueColumns Sample.ragged_rows = [].
Proof.
  split; [|split].
  - apply isNumCol_spec. reflexivity.
  - apply is_priority_spec. reflexivity.
  - reflexivity.
Qed.

(** C4 fails as stated: handed an object that has no string, such as
    [Object.create(null)], [normalizeName] throws and returns no key. *)
Lemma normalizeName_throws_on_object :
  normalizeName_any Sample.unicode_upper Sample.number_to_string
    (Object None) = Throws
  ∧ ¬ ∃ key,
        normalizeName_any Sample.unicode_upper Sample.number_to_string
          (Object None) = Returns key.
Proof. split; [reflexivity|]. intros [key H]. discriminate H. Qed.

(** ** Further worked examples *)

(** The sample upper-case table leaves white space outside ASCII as it
    is. *)
Lemma Sample_space_upper (c : N) :
  is_space c = true → 128 ≤ c →
  List.filter is_key_char (Sample.unicode_upper c) = [].
Proof.
  unfold is_space.
  rewrite !orb_true_iff, !andb_true_iff, !N.leb_le, !N.eqb_eq.
  intros Hs Hge. unfold Sample.unicode_upper.
  destruct (N.eqb_spec c 223); [lia|]. destruct (N.eqb_spec c 181); [lia|].
  destruct (N.eqb_spec c 255); [lia|].
  destruct (N.leb_spec 224 c), (N.leb_spec c 254); simpl; try lia;
    (destruct (is_key_char c) eqn:Hk; [apply key_char_range in Hk; lia|done]).
Qed.

(** Two spellings of one name. *)
Lemma normalizeName_ignores_case_witness :
  normalize (JStr (js "Greater Geelong")) = normalize (JStr (js "gREATER geelong")).
Proof.
  apply (normalizeName_ignores_case Sample.unicode_upper
           Sample.number_to_string (js "Greater Geelong")
           (js "gREATER geelong")).
  reflexivity.
Defined.

(** A region cell with spaces around the name. *)
Lemma row_key_of_raw_cell_witness :
  normalize
    (JStr (region_name Sample.number_to_string (js "LGA")
             [(js "LGA", JStr (js " MELBOURNE ")); (js "Exp", JNum 5)]))
  = normalize
      (row_get [(js "LGA", JStr (js " MELBOURNE ")); (js "Exp", JNum 5)]
         (js "LGA")).
Proof.
  apply (row_key_of_raw_cell Sample.unicode_upper Sample.number_to_string
           Sample_space_upper).
  vm_compute. discriminate.
Defined.

(** The first sample table has the candidate header [LGA]. *)
Lemma detectLgaColumn_header_witness :
  ∃ r0 rest, FileMapping.rows Sample.fileA = r0 :: rest
             ∧ js "LGA" ∈ Object_keys r0.
Proof.
  apply (detectLgaColumn_header Sample.unicode_toLowerCase
           (FileMapping.rows Sample.fileA) (js "LGA")).
  vm_compute. reflexivity.
Defined.

(** Headers [lga_code] and [name]: the candidate [name] wins over the
    header that merely contains "lga". *)
Lemma detectLgaColumn_candidate_first_witness :
  ∃ pre c post,
    candidates = pre ++ c :: post
    ∧ detectLgaColumn Sample.unicode_toLowerCase
        [ [(js "lga_code", JNum 7); (js "name", JStr (js "Yarra"))] ]
      = Some c
    ∧ c ∈ Object_keys [(js "lga_code", JNum 7); (js "name", JStr (js "Yarra"))]
    ∧ Forall (λ x, x ∉ Object_keys
                     [(js "lga_code", JNum 7); (js "name", JStr (js "Yarra"))])
        pre.
Proof.
  apply (detectLgaColumn_candidate_first Sample.unicode_toLowerCase
           [(js "lga_code", JNum 7); (js "name", JStr (js "Yarra"))] []
           (js "name")).
  - apply list_elem_of_In. vm_compute. tauto.
  - apply list_elem_of_In. vm_compute. tauto.
Defined.

(** The mapping of the first sample table is the detected one. *)
Lemma aggregateByLga_as_mapping_witness :
  aggregate [Sample.fileA]
  = aggregateByLga Sample.unicode_upper Sample.unicode_toLowerCase
      Sample.number_to_string Sample.string_to_number
      [FileMapping.rows Sample.fileA].
Proof.
  apply (aggregateByLga_as_mapping Sample.unicode_upper
           Sample.unicode_toLowerCase Sample.number_to_string
           Sample.string_to_number [Sample.fileA]).
  repeat constructor; vm_compute; reflexivity.
Defined.

(** The proposal for the first sample table. *)
Lemma guessMapping_valueCols_witness :
  FileMapping.valueCols
    (guessMapping (js "a.csv") (FileMapping.rows Sample.fileA))
  = detectValueColumns (FileMapping.rows Sample.fileA).
Proof.
  apply (guessMapping_valueCols (js "a.csv") (FileMapping.rows Sample.fileA)).
  repeat constructor; vm_compute; discriminate.
Defined.

(** A table with the headers [Lga code] and [Total]. *)
Lemma guessMapping_lgaCol_witness :
  FileMapping.lgaCol
    (guessMapping (js "g.xlsx")
       [ [(js "Lga code", JStr (js "Yarra")); (js "Total", JNum 5)] ])
  = detectLgaColumn Sample.unicode_toLowerCase
      [ [(js "Lga code", JStr (js "Yarra")); (js "Total", JNum 5)] ].
Proof.
  apply (guessMapping_lgaCol Sample.unicode_toLowerCase (js "g.xlsx")
           [ [(js "Lga code", JStr (js "Yarra")); (js "Total", JNum 5)] ]).
  apply Forall_cons. split; [|apply Forall_cons; split; [|by apply Forall_nil]].
  - split.
    + intros H%list_elem_of_In. vm_compute in H. intuition discriminate.
    + apply Forall_forall. intros x Hx%list_elem_of_In. vm_compute in Hx.
      intuition (subst; reflexivity).
  - split.
    + intros H%list_elem_of_In. vm_compute in H. intuition discriminate.
    + apply Forall_forall. intros x Hx%list_elem_of_In. vm_compute in Hx.
      intuition (subst; reflexivity).
Defined.

(** The regions of the second sample table, in either order. *)
Lemma merge_order_irrelevant_witness :
  merge Sample.geo (aggregate [Sample.fileB])
  = merge Sample.geo (rev (aggregate [Sample.fileB])).
Proof.
  apply (merge_order_irrelevant Sample.unicode_upper Sample.number_to_string
           Sample.geo (aggregate [Sample.fileB])
           (rev (aggregate [Sample.fileB]))).
  - apply NoDup_ListNoDup. vm_compute.
    repeat (constructor; [simpl; intuition discriminate|]). constructor.
  - apply Permutation_rev.
Defined.

(** The sample collection merged twice with the regions of the sample
    tables. *)
Lemma merge_idempotent_witness :
  merge (merge Sample.geo (aggregate [Sample.fileA; Sample.fileB]))
    (aggregate [Sample.fileA; Sample.fileB])
  = merge Sample.geo (aggregate [Sample.fileA; Sample.fileB]).
Proof.
  apply (merge_idempotent Sample.unicode_upper Sample.number_to_string
           Sample.geo (aggregate [Sample.fileA; Sample.fileB])).
  vm_compute. repeat constructor.
Defined.

(** A name with two dots and an upper-case extension goes to the CSV
    parser. *)
Lemma parseFile_by_extension_witness :
  parseFile Sample.unicode_toLowerCase
    (λ _, Resolved []) (λ _, Rejected (LibraryError (js "not a workbook")))
    (UploadedFile.mk (js "report.v2.CSV") [])
  = Resolved [].
Proof.
  apply (parseFile_by_extension Sample.unicode_toLowerCase
           (λ _, Resolved [])
           (λ _, Rejected (LibraryError (js "not a workbook")))
           (UploadedFile.mk (js "report.v2.CSV") [])
           (js "report.v2") (js "CSV")).
  - reflexivity.
  - intros H%list_elem_of_In. vm_compute in H. intuition discriminate.
  - repeat constructor; vm_compute; reflexivity.
Defined.
